(** * WebSQL emulation over SQLite3: the transaction engine

    A shallow embedding of the two variants of [openDatabase]:

    - [Node]    : [websql-sqlite3-node.js], on the [sqlite3] package, whose
                  [Database] queues every operation and completes it through
                  a callback on a later turn of the event loop;
    - [Browser] : the SQLite3 WASM variant, whose [db.exec] runs in place
                  and returns (or throws) before the next line executes.

    What the program does is observed as a chronological list of [Event]s:
    the operations handed to the driver, their completions and every call of
    a caller-supplied function. *)

From Stdlib Require Import List String ZArith Bool Lia.
Import ListNotations.
Local Open Scope string_scope.
Local Open Scope list_scope.

Set Implicit Arguments.

(** ** Values exchanged with the engine *)

Inductive Value : Type :=
| VNull
| VInt (z : Z)
| VText (s : string).

(** A row is a plain object: column name to value, in the engine's order. *)
Definition Row : Type := list (string * Value).

Definition Error : Type := string.

(** [rows[i]] on a JavaScript array: [undefined] outside [0 .. length-1]. *)
Definition js_index {A : Type} (l : list A) (i : Z) : option A :=
  if (i <? 0)%Z then None else nth_error l (Z.to_nat i).

(** [x || 0] and [x || null] on a number that may be [undefined]. *)
Definition or_zero (x : option Z) : Z :=
  match x with
  | Some n => if (n =? 0)%Z then 0%Z else n
  | None => 0%Z
  end.

Definition or_null (x : option Z) : option Z :=
  match x with
  | Some n => if (n =? 0)%Z then None else Some n
  | None => None
  end.

(** ** Caller-supplied functions

    A function handed to the library (builder, statement callback,
    transaction callback, creation callback) is known by its name and by the
    [executeSql] calls it makes, in order, on the transaction object it
    closes over; it returns normally.  [None] in a callback position is a
    value for which [typeof f === 'function'] is false. *)

Inductive Callback : Type :=
| Fn (name : string) (body : list SqlCall)
with SqlCall : Type :=
| ExecuteSql (sql : string) (params : option (list Value))
             (successCallback errorCallback : option Callback).

Definition fn_name (f : Callback) : string :=
  match f with Fn name _ => name end.

Definition fn_body (f : Callback) : list SqlCall :=
  match f with Fn _ body => body end.

(** The object literal [{ sql, params, successCallback, errorCallback }];
    [params = []] is the default of the formal parameter. *)
Record StatementRequest : Type := mkStatement {
  sql : string;
  params : list Value;
  successCallback : option Callback;
  errorCallback : option Callback
}.

Definition default_params (p : option (list Value)) : list Value :=
  match p with Some l => l | None => [] end.

Definition request (c : SqlCall) : StatementRequest :=
  match c with
  | ExecuteSql s p ok ko => mkStatement s (default_params p) ok ko
  end.

(** ** Result sets *)

Module Rows.
Record t : Type := mk {
  length : nat;
  item : Z -> option Row;
  _array : list Row
}.
End Rows.

Record ResultSet : Type := mkResultSet {
  rowsAffected : Z;
  insertId : option Z;
  rows : Rows.t
}.

(** The [rows] member both variants build from the engine's row array. *)
Definition row_list (result : list Row) : Rows.t :=
  Rows.mk (List.length result) (fun i => js_index result i) result.

(** ** Driver operations and the observable trace *)

Inductive DriverCall : Type :=
| Run (sql : string)                         (* db.run(sql)            *)
| All (sql : string) (params : list Value)   (* db.all(sql, params, f) *)
| Exec (sql : string) (bind : list Value).   (* db.exec({sql, bind})   *)

(** [this] inside a [db.all] completion callback: the statement object,
    whose [changes] and [lastID] may be absent. *)
Record StatementCtx : Type := mkCtx {
  changes : option Z;
  lastID : option Z
}.

Inductive Completion : Type :=
| Failed (err : Error)
| Done (this : StatementCtx) (result : list Row).

Inductive Slot : Type :=
| Builder | Creation | StmtSuccess | StmtError | TxSuccess | TxError.

Inductive Arg : Type :=
| NoArg
| ArgTx                          (* the Transaction object          *)
| ArgDb                          (* the raw connection              *)
| ArgError (err : Error)
| ArgResult (rs : ResultSet).    (* second argument of a statement success callback *)

Inductive Event : Type :=
| OpenRequested (name : string)
| Opened (err : option Error)
| LoggedError (err : Error)                  (* console.error *)
| HandleReturned                             (* openDatabase returned *)
| TickScheduled                              (* process.nextTick(f)   *)
| TickStarted
| Registered (s : StatementRequest)          (* statements.push(s)    *)
| Dispatched (c : DriverCall)
| Resolved (c : DriverCall) (r : Completion)   (* the queued operation completed *)
| ExecReturned (c : DriverCall) (result : list Row)
| ExecThrew (c : DriverCall) (err : Error)
| Called (slot : Slot) (f : string) (a : Arg)
| Returned (slot : Slot) (f : string)
| Raised (err : Error)                       (* thrown inside a try, after db.exec returned *)
| Uncaught (err : Error).                    (* an exception nothing catches *)

Definition Trace : Type := list Event.

(** Projections of a trace used to state the properties. *)

Definition dispatches (tr : Trace) : list DriverCall :=
  flat_map (fun e => match e with Dispatched c => [c] | _ => [] end) tr.

Definition is_run (c : DriverCall) : bool :=
  match c with Run _ => true | _ => false end.

Definition calls_of (slot : Slot) (tr : Trace) : list (string * Arg) :=
  flat_map (fun e =>
    match e, slot with
    | Called Builder f a, Builder
    | Called Creation f a, Creation
    | Called StmtSuccess f a, StmtSuccess
    | Called StmtError f a, StmtError
    | Called TxSuccess f a, TxSuccess
    | Called TxError f a, TxError => [(f, a)]
    | _, _ => []
    end) tr.

Definition is_resolution (e : Event) : bool :=
  match e with
  | Resolved _ _ | ExecReturned _ _ | ExecThrew _ _ => true
  | _ => false
  end.

Definition resolved_calls (tr : Trace) : list DriverCall :=
  flat_map (fun e => match e with Resolved c _ => [c] | _ => [] end) tr.

Definition is_failure (e : Event) : bool :=
  match e with
  | Resolved _ (Failed _) | ExecThrew _ _ => true
  | _ => false
  end.

(** ** The queued variant: [websql-sqlite3-node.js] *)

Module Node.
Section Engine.

(** The [sqlite3] package at its boundary.  [connect] is the outcome of
    opening the file; [perform] is the outcome of one queued operation on
    the current database.  Neither is called when the operation is
    submitted: the package completes work on a later turn of the event
    loop, one operation at a time, in submission order, and reports a
    failure to the operation's callback or, when it was given none, as an
    ['error'] event on the [Database]. *)
Variable DB : Type.
Variable connect : string -> DB * option Error.
Variable perform : DB -> DriverCall -> DB * Completion.

(** One entry of the connection's serialized queue: the operation, and
    the statement whose callbacks the completion closure captured
    ([None] for [db.run], which is given no callback). *)
Record Pending : Type := mkPending {
  op : DriverCall;
  captured : option StatementRequest
}.

Record World : Type := mkWorld {
  db : DB;
  queue : list Pending;
  statements : list StatementRequest;   (* const statements = []    *)
  errorOccurred : bool;                 (* let errorOccurred = false *)
  trace : Trace
}.

Definition log (e : Event) (w : World) : World :=
  mkWorld (db w) (queue w) (statements w) (errorOccurred w) (trace w ++ [e]).

Definition submit (p : Pending) (w : World) : World :=
  log (Dispatched (op p))
      (mkWorld (db w) (queue w ++ [p]) (statements w) (errorOccurred w) (trace w)).

Definition set_errorOccurred (b : bool) (w : World) : World :=
  mkWorld (db w) (queue w) (statements w) b (trace w).

(** [this.executeSql]: [statements.push({...})], nothing else. *)
Definition executeSql (c : SqlCall) (w : World) : World :=
  log (Registered (request c))
      (mkWorld (db w) (queue w) (statements w ++ [request c])
               (errorOccurred w) (trace w)).

(** Running a caller-supplied function: its [executeSql] calls, in order. *)
Definition call (slot : Slot) (f : Callback) (a : Arg) (w : World) : World :=
  let w := log (Called slot (fn_name f) a) w in
  let w := fold_left (fun w c => executeSql c w) (fn_body f) w in
  log (Returned slot (fn_name f)) w.

Definition db_run (s : string) (w : World) : World :=
  submit (mkPending (Run s) None) w.

Definition db_all (s : StatementRequest) (w : World) : World :=
  submit (mkPending (All (sql s) (params s)) (Some s)) w.

(** The object handed to a statement success callback. *)
Definition result_set (this : StatementCtx) (result : list Row) : ResultSet :=
  mkResultSet (or_zero (changes this)) (or_null (lastID this)) (row_list result).

(** The body of [statements.forEach]. *)
Definition each_statement (w : World) (s : StatementRequest) : World :=
  if errorOccurred w then w else db_all s w.

(** The closure given to [process.nextTick]. *)
Definition tick (readOnly : bool) (successCallback : option Callback)
           (w : World) : World :=
  let w := log TickStarted w in
  let w := if negb readOnly then db_run "BEGIN TRANSACTION;" w else w in
  let w := set_errorOccurred false w in
  let w := fold_left each_statement (statements w) w in
  let w := if negb readOnly && negb (errorOccurred w)
           then db_run "COMMIT;" w else w in
  match successCallback with
  | Some f => if negb (errorOccurred w) then call TxSuccess f NoArg w else w
  | None => w
  end.

(** The completion closure [function (err, rows) {...}] of [db.all]. *)
Definition on_complete (s : StatementRequest) (r : Completion)
           (w : World) : World :=
  match r with
  | Failed err =>
      let w := set_errorOccurred true w in
      match errorCallback s with
      | Some f => call StmtError f (ArgError err) w
      | None => w
      end
  | Done this result =>
      match successCallback s with
      | Some f => call StmtSuccess f (ArgResult (result_set this result)) w
      | None => w
      end
  end.

(** The driver takes one queued operation, performs it and calls back. *)
Definition complete (w : World) (p : Pending) : World :=
  let (d, r) := perform (db w) (op p) in
  let w := log (Resolved (op p) r)
               (mkWorld d (queue w) (statements w) (errorOccurred w) (trace w)) in
  match captured p with
  | Some s => on_complete s r w
  | None => w
  end.

(** An operation that fails and was given no callback makes the
    [Database] emit ['error'].  The program registers no listener for it,
    so the emit throws and nothing catches the exception. *)
Definition unhandled (p : Pending) (r : Completion) : option Error :=
  match captured p, r with
  | None, Failed err => Some err
  | _, _ => None
  end.

(** The driver works through its queue, until an uncaught exception ends
    the program. *)
Fixpoint work (q : list Pending) (w : World) : World :=
  match q with
  | [] => w
  | p :: q' =>
      match unhandled p (snd (perform (db w) (op p))) with
      | Some err => log (Uncaught err) (complete w p)
      | None => work q' (complete w p)
      end
  end.

Definition drain (w : World) : World :=
  work (queue w) (mkWorld (db w) [] (statements w) (errorOccurred w) (trace w)).

(** [new Transaction(db, readOnly, errorCallback, successCallback)]: the
    constructor creates the empty [statements] array and schedules the
    tick.  [errorCallback] is received and never used. *)
Definition Transaction (readOnly : bool)
           (errorCallback successCallback : option Callback)
           (d : DB) : World :=
  log TickScheduled (mkWorld d [] [] false []).

(** The function given to [db.serialize] by [transaction] and
    [readTransaction]: construct, then [callback(tx)]. *)
Definition begun (readOnly : bool) (callback : Callback)
           (errorCallback successCallback : option Callback)
           (d : DB) : World :=
  call Builder callback ArgTx
       (Transaction readOnly errorCallback successCallback d).

(** The world when the scheduled tick has run and no operation has
    completed yet. *)
Definition after_tick (readOnly : bool) (callback : Callback)
           (errorCallback successCallback : option Callback)
           (d : DB) : World :=
  tick readOnly successCallback
       (begun readOnly callback errorCallback successCallback d).

(** The whole life of one transaction: the call, then the event loop
    runs the tick, then the driver works through its queue. *)
Definition run (readOnly : bool) (callback : Callback)
           (errorCallback successCallback : option Callback)
           (d : DB) : World :=
  drain (after_tick readOnly callback errorCallback successCallback d).

Definition transaction := run false.
Definition readTransaction := run true.

(** [openDatabase] constructs the [Database], handing it the closure
    [(err) => {...}], and returns the handle; [creationCallback] is only
    mentioned inside that closure.  [open_completed] is the closure, run
    by the package when the open has finished. *)
Definition openDatabase (name : string)
           (creationCallback : option Callback) : Trace :=
  [OpenRequested name; HandleReturned].

Definition open_completed (name : string)
           (creationCallback : option Callback) : Trace :=
  match snd (connect name) with
  | Some err => [Opened (Some err); LoggedError err]
  | None =>
      match creationCallback with
      | Some f => [Opened None; Called Creation (fn_name f) ArgDb;
                   Returned Creation (fn_name f)]
      | None => [Opened None]
      end
  end.

Definition open_trace (name : string)
           (creationCallback : option Callback) : Trace :=
  openDatabase name creationCallback ++ open_completed name creationCallback.

End Engine.
End Node.

(** ** The synchronous variant: SQLite3 WASM in the browser *)

Module Browser.
Section Engine.

(** The [oo1.DB] object at its boundary: the constructor, which returns a
    connection or throws; [db.exec], which returns the result rows or
    throws; and the calls [db.changes()] and [db.lastInsertRowid()], each
    of which returns a number or throws (as a call of a method the
    connection does not have does). *)
Variable DB : Type.
Variable connect : string -> DB + Error.
Variable exec : DB -> string -> list Value -> DB * (list Row + Error).
Variable db_changes : DB -> Z + Error.
Variable db_lastInsertRowid : DB -> Z + Error.

Record World : Type := mkWorld {
  db : DB;
  trace : Trace
}.

Definition log (e : Event) (w : World) : World :=
  mkWorld (db w) (trace w ++ [e]).

(** The object literal handed to a statement success callback:
    [db.changes()] is evaluated first, then [db.lastInsertRowid()]; an
    exception from either leaves no object. *)
Definition result_set (d : DB) (result : list Row) : ResultSet + Error :=
  match db_changes d with
  | inr err => inr err
  | inl n =>
      match db_lastInsertRowid d with
      | inr err => inr err
      | inl k => inl (mkResultSet n (Some k) (row_list result))
      end
  end.

(** [db.exec({ sql, bind: params, returnValue: "resultRows" })]. *)
Definition db_exec (s : string) (bind : list Value)
           (w : World) : World * (list Row + Error) :=
  let w := log (Dispatched (Exec s bind)) w in
  let (d, r) := exec (db w) s bind in
  match r with
  | inl result => (log (ExecReturned (Exec s bind) result) (mkWorld d (trace w)), r)
  | inr err => (log (ExecThrew (Exec s bind) err) (mkWorld d (trace w)), r)
  end.

(** [this.executeSql]: the statement runs at once, and so does whatever
    the callback it triggers registers in turn.  The [try] encloses
    [db.exec], the construction of the result object and the call of the
    success callback; the [catch] hands whatever was thrown to the error
    callback. *)
Fixpoint executeSql (c : SqlCall) (w : World) {struct c} : World :=
  match c with
  | ExecuteSql s p ok ko =>
      let (w, r) := db_exec s (default_params p) w in
      match r with
      | inl result =>
          match ok with
          | Some f =>
              match result_set (db w) result with
              | inl rs => call StmtSuccess f (ArgResult rs) w
              | inr err =>
                  let w := log (Raised err) w in
                  match ko with
                  | Some g => call StmtError g (ArgError err) w
                  | None => w
                  end
              end
          | None => w
          end
      | inr err =>
          match ko with
          | Some f => call StmtError f (ArgError err) w
          | None => w
          end
      end
  end
with call (slot : Slot) (f : Callback) (a : Arg) (w : World) {struct f} : World :=
  match f with
  | Fn name body =>
      let w := log (Called slot name a) w in
      let w := (fix each (l : list SqlCall) (w : World) {struct l} : World :=
                  match l with
                  | [] => w
                  | c :: l' => each l' (executeSql c w)
                  end) body w in
      log (Returned slot name) w
  end.

(** [new Transaction(db, readOnly, errorCallback, successCallback)]: the
    constructor only defines [executeSql]; none of its four arguments
    but [db] is used. *)
Definition Transaction (readOnly : bool)
           (errorCallback successCallback : option Callback)
           (d : DB) : World :=
  mkWorld d [].

Definition run (readOnly : bool) (callback : Callback)
           (errorCallback successCallback : option Callback)
           (d : DB) : World :=
  call Builder callback ArgTx
       (Transaction readOnly errorCallback successCallback d).

Definition transaction := run false.
Definition readTransaction := run true.

(** [openDatabase], up to the return of the handle. *)
Definition openDatabase (name : string)
           (creationCallback : option Callback) : Trace :=
  match connect name with
  | inr err => [OpenRequested name; Opened (Some err)]
  | inl d =>
      [OpenRequested name; Opened None] ++
      match creationCallback with
      | Some f => [Called Creation (fn_name f) ArgDb;
                   Returned Creation (fn_name f)]
      | None => []
      end ++ [HandleReturned]
  end.

End Engine.
End Browser.

(** ** Reading a trace *)

(** The part of a trace strictly before, and strictly after, the first
    event that satisfies [P]. *)
Fixpoint upto (P : Event -> bool) (tr : Trace) : Trace :=
  match tr with
  | [] => []
  | e :: tr' => if P e then [] else e :: upto P tr'
  end.

Fixpoint since (P : Event -> bool) (tr : Trace) : Trace :=
  match tr with
  | [] => []
  | e :: tr' => if P e then tr' else since P tr'
  end.

Definition is_builder_return (e : Event) : bool :=
  match e with Returned Builder _ => true | _ => false end.

Definition is_handle_return (e : Event) : bool :=
  match e with HandleReturned => true | _ => false end.

Definition is_tick (e : Event) : bool :=
  match e with TickStarted => true | _ => false end.

Definition is_registration (e : Event) : bool :=
  match e with Registered _ => true | _ => false end.

Definition is_tx_callback (e : Event) : bool :=
  match e with
  | Called TxSuccess _ _ | Called TxError _ _ => true
  | _ => false
  end.

(** The driver operation a registered statement is dispatched as. *)
Definition all_of (s : StatementRequest) : DriverCall := All (sql s) (params s).

Definition statement_dispatches (tr : Trace) : list DriverCall :=
  filter (fun c => negb (is_run c)) (dispatches tr).

Definition control_dispatches (tr : Trace) : list DriverCall :=
  filter is_run (dispatches tr).

(** No operation failed. *)
Definition error_free (tr : Trace) : Prop :=
  existsb is_failure tr = false.

(** One BEGIN, then the statements, then one COMMIT. *)
Definition bracketed (tr : Trace) : Prop :=
  exists body,
    dispatches tr = Run "BEGIN TRANSACTION;" :: body ++ [Run "COMMIT;"]
    /\ existsb is_run body = false.

(** The transaction-level callback fired once, and nothing resolved after. *)
Definition completed_once (tr : Trace) : Prop :=
  List.length (filter is_tx_callback tr) = 1.

Definition completed_last (tr : Trace) : Prop :=
  existsb is_resolution (since is_tx_callback tr) = false.

(** Nothing is dispatched while the builder is still running. *)
Definition registration_first (tr : Trace) : Prop :=
  dispatches (upto is_builder_return tr) = [].

(** The errors handed to a caller-supplied function, with the slot of
    the function that received them. *)
Definition error_deliveries (tr : Trace) : list (Slot * Error) :=
  flat_map (fun e =>
    match e with
    | Called slot _ (ArgError err) => [(slot, err)]
    | _ => []
    end) tr.

(** What [console.error] was given. *)
Definition logged_errors (tr : Trace) : list Error :=
  flat_map (fun e => match e with LoggedError err => [err] | _ => [] end) tr.

(** The result sets handed to statement success callbacks. *)
Definition delivered (tr : Trace) : list ResultSet :=
  flat_map (fun e =>
    match e with
    | Called StmtSuccess _ (ArgResult rs) => [rs]
    | _ => []
    end) tr.

Definition well_formed (rs : ResultSet) : Prop :=
  Rows.length (rows rs) = List.length (Rows._array (rows rs))
  /\ forall i, Rows.item (rows rs) i = js_index (Rows._array (rows rs)) i.

(** ** The trace of the queued variant, written out *)

Definition registrations (f : Callback) : Trace :=
  map (fun c => Registered (request c)) (fn_body f).

Definition call_events (slot : Slot) (f : Callback) (a : Arg) : Trace :=
  Called slot (fn_name f) a :: registrations f ++ [Returned slot (fn_name f)].

Definition optional_call (slot : Slot) (f : option Callback) (a : Arg) : Trace :=
  match f with
  | Some f => call_events slot f a
  | None => []
  end.

Definition optional_body (f : option Callback) : list StatementRequest :=
  match f with
  | Some f => map request (fn_body f)
  | None => []
  end.

Definition control (readOnly : bool) (s : string) : list DriverCall :=
  if readOnly then [] else [Run s].

Definition tick_dispatches (readOnly : bool)
           (l : list StatementRequest) : list DriverCall :=
  control readOnly "BEGIN TRANSACTION;" ++ map all_of l
  ++ control readOnly "COMMIT;".

Section Completions.
Variable DB : Type.
Variable perform : DB -> DriverCall -> DB * Completion.

Definition reaction (s : StatementRequest) (r : Completion) : Trace :=
  match r with
  | Failed err => optional_call StmtError (errorCallback s) (ArgError err)
  | Done this result =>
      optional_call StmtSuccess (successCallback s)
                    (ArgResult (Node.result_set this result))
  end.

Definition late (s : StatementRequest) (r : Completion) : list StatementRequest :=
  match r with
  | Failed _ => optional_body (errorCallback s)
  | Done _ _ => optional_body (successCallback s)
  end.

Definition optional_reaction (s : option StatementRequest)
           (r : Completion) : Trace :=
  match s with
  | Some s => reaction s r
  | None => []
  end.

Definition optional_late (s : option StatementRequest)
           (r : Completion) : list StatementRequest :=
  match s with
  | Some s => late s r
  | None => []
  end.

(** What the driver's work through its queue adds to the trace, and to
    the [statements] array. *)
Fixpoint completions (d : DB) (q : list Node.Pending) : Trace :=
  match q with
  | [] => []
  | p :: q' =>
      let (d', r) := perform d (Node.op p) in
      Resolved (Node.op p) r :: optional_reaction (Node.captured p) r
      ++ match Node.unhandled p r with
         | Some err => [Uncaught err]
         | None => completions d' q'
         end
  end.

Fixpoint late_statements (d : DB) (q : list Node.Pending) : list StatementRequest :=
  match q with
  | [] => []
  | p :: q' =>
      let (d', r) := perform d (Node.op p) in
      optional_late (Node.captured p) r
      ++ match Node.unhandled p r with
         | Some _ => []
         | None => late_statements d' q'
         end
  end.

Definition pending_of (c : DriverCall) : Node.Pending :=
  Node.mkPending c None.

Definition tick_queue (readOnly : bool)
           (l : list StatementRequest) : list Node.Pending :=
  map pending_of (control readOnly "BEGIN TRANSACTION;")
  ++ map (fun s => Node.mkPending (all_of s) (Some s)) l
  ++ map pending_of (control readOnly "COMMIT;").

(** The trace of a whole transaction. *)
Definition node_trace (readOnly : bool) (callback : Callback)
           (successCallback : option Callback) (d : DB) : Trace :=
  [TickScheduled] ++ call_events Builder callback ArgTx
  ++ [TickStarted]
  ++ map Dispatched (tick_dispatches readOnly (map request (fn_body callback)))
  ++ optional_call TxSuccess successCallback NoArg
  ++ completions d (tick_queue readOnly (map request (fn_body callback))).
End Completions.

(** ** A sample engine

    A single [users] table, as in the repository's example.  [db.changes()]
    and the last insert rowid are those of the most recent INSERT and are left
    alone by every other statement, as SQLite documents them; the statement
    object of [db.all] carries neither [changes] nor [lastID]. *)

Module Sample.
Record Db : Type := mkDb {
  users : list Row;
  changes_value : Z;
  rowid_value : Z
}.

(** A connection that answers both [db.changes()] and
    [db.lastInsertRowid()]. *)
Definition changes_count (d : Db) : Z + Error := inl (changes_value d).
Definition last_rowid (d : Db) : Z + Error := inl (rowid_value d).

(** A connection without a [lastInsertRowid] method: the call throws. *)
Definition no_rowid (d : Db) : Z + Error :=
  inr "TypeError: db.lastInsertRowid is not a function".

Definition empty : Db := mkDb [] 0 0.

Definition create_users : string :=
  "CREATE TABLE IF NOT EXISTS users (id INTEGER PRIMARY KEY, name TEXT);".
Definition insert_user : string := "INSERT INTO users (name) VALUES (?);".
Definition select_users : string := "SELECT * FROM users;".

Definition step (d : Db) (s : string) (ps : list Value) : Db * option (list Row) :=
  if String.eqb s create_users then (d, Some [])
  else if String.eqb s insert_user then
    match ps with
    | [v] =>
        let id := (Z.of_nat (List.length (users d)) + 1)%Z in
        (mkDb (users d ++ [[("id", VInt id); ("name", v)]]) 1 id, Some [])
    | _ => (d, None)
    end
  else if String.eqb s select_users then (d, Some (users d))
  else if String.eqb s "BEGIN TRANSACTION;" then (d, Some [])
  else if String.eqb s "COMMIT;" then (d, Some [])
  else (d, None).

Definition perform (d : Db) (c : DriverCall) : Db * Completion :=
  match c with
  | Run s =>
      match step d s [] with
      | (d', Some r) => (d', Done (mkCtx (Some (changes_value d')) (Some (rowid_value d'))) r)
      | (d', None) => (d', Failed "SQLITE_ERROR")
      end
  | All s ps | Exec s ps =>
      match step d s ps with
      | (d', Some r) => (d', Done (mkCtx None None) r)
      | (d', None) => (d', Failed "SQLITE_ERROR")
      end
  end.

Definition exec (d : Db) (s : string) (ps : list Value) : Db * (list Row + Error) :=
  match step d s ps with
  | (d', Some r) => (d', inl r)
  | (d', None) => (d', inr "SQLITE_ERROR")
  end.

Definition connect (name : string) : Db * option Error := (empty, None).
Definition construct (name : string) : Db + Error := inl empty.

(** Builders. *)
Definition insert (who : string) (ok ko : option Callback) : SqlCall :=
  ExecuteSql insert_user (Some [VText who]) ok ko.

Definition one_insert : Callback := Fn "build" [insert "Alice" None None].

Definition failing_then_insert : Callback :=
  Fn "build" [ExecuteSql "INSERT INTO nowhere VALUES (1);" None None
                         (Some (Fn "onStatementError" []));
              insert "Bob" None None].

Definition insert_then_select : Callback :=
  Fn "build" [insert "Alice" None None;
              ExecuteSql select_users None (Some (Fn "onRows" [])) None].

(** A success callback that registers one more statement on the
    transaction it closes over. *)
Definition insert_then_more : Callback :=
  Fn "build" [insert "Alice" (Some (Fn "onInserted" [insert "Bob" None None])) None].

Definition on_error : option Callback := Some (Fn "onTransactionError" []).
Definition on_success : option Callback := Some (Fn "onTransactionSuccess" []).
Definition on_created : option Callback := Some (Fn "onCreated" []).
End Sample.

(** ** The events of the synchronous variant

    What one [executeSql] call of the browser variant can add to the
    trace. *)

Inductive inline_event : Event -> Prop :=
| inline_dispatch s b :
    inline_event (Dispatched (Exec s b))
| inline_returned s b result :
    inline_event (ExecReturned (Exec s b) result)
| inline_threw s b err :
    inline_event (ExecThrew (Exec s b) err)
| inline_raised err :
    inline_event (Raised err)
| inline_success f n k result :
    inline_event (Called StmtSuccess f
      (ArgResult (mkResultSet n (Some k) (row_list result))))
| inline_success_end f :
    inline_event (Returned StmtSuccess f)
| inline_error f err :
    inline_event (Called StmtError f (ArgError err))
| inline_error_end f :
    inline_event (Returned StmtError f).

(** ** The events of the queued variant *)

Inductive queued_event : Event -> Prop :=
| queued_scheduled : queued_event TickScheduled
| queued_tick : queued_event TickStarted
| queued_builder f : queued_event (Called Builder f ArgTx)
| queued_registered s : queued_event (Registered s)
| queued_returned slot f : queued_event (Returned slot f)
| queued_run s : queued_event (Dispatched (Run s))
| queued_all s p : queued_event (Dispatched (All s p))
| queued_success f : queued_event (Called TxSuccess f NoArg)
| queued_resolved c r : queued_event (Resolved c r)
| queued_uncaught err : queued_event (Uncaught err)
| queued_statement_error f err :
    queued_event (Called StmtError f (ArgError err))
| queued_statement_success f this result :
    queued_event (Called StmtSuccess f (ArgResult (Node.result_set this result))).

Definition option_all {A : Type} (P : A -> Prop) (o : option A) : Prop :=
  match o with
  | Some x => P x
  | None => True
  end.

(** * Properties *)

(** ** Lists of events *)

Ltac flatten_lists :=
  simpl; repeat (progress (rewrite <- ?app_assoc, <- ?app_comm_cons)); simpl.

Lemma dispatches_app (a b : Trace) :
  dispatches (a ++ b) = dispatches a ++ dispatches b.
Proof. apply flat_map_app. Qed.

Lemma dispatches_map_Dispatched (l : list DriverCall) :
  dispatches (map Dispatched l) = l.
Proof. induction l as [|c l IH]; simpl; [reflexivity | now rewrite IH]. Qed.

Lemma upto_app_hit (P : Event -> bool) (a b : Trace) :
  existsb P a = true -> upto P (a ++ b) = upto P a.
Proof.
  induction a as [|e a IH]; simpl; [discriminate|].
  destruct (P e); simpl; [reflexivity|]. intros H. now rewrite IH.
Qed.

Lemma upto_app_miss (P : Event -> bool) (a b : Trace) :
  existsb P a = false -> upto P (a ++ b) = a ++ upto P b.
Proof.
  induction a as [|e a IH]; simpl; [reflexivity|].
  destruct (P e); simpl; [discriminate|]. intros H. now rewrite IH.
Qed.

Lemma since_app_miss (P : Event -> bool) (a b : Trace) :
  existsb P a = false -> since P (a ++ b) = since P b.
Proof.
  induction a as [|e a IH]; simpl; [reflexivity|].
  destruct (P e); simpl; [discriminate|]. exact IH.
Qed.

(** ** The queued variant, step by step *)

Section NodeSteps.
Variable DB : Type.
Variable perform : DB -> DriverCall -> DB * Completion.

Let World := Node.World DB.

Lemma registered_spec (l : list SqlCall) (w : World) :
  fold_left (fun w c => Node.executeSql c w) l w
  = Node.mkWorld (Node.db w) (Node.queue w)
                 (Node.statements w ++ map request l)
                 (Node.errorOccurred w)
                 (Node.trace w ++ map (fun c => Registered (request c)) l).
Proof.
  revert w. induction l as [|c l IH]; intros w; simpl.
  - rewrite !app_nil_r. now destruct w.
  - rewrite IH. simpl. now rewrite <- !app_assoc.
Qed.

Lemma call_spec (slot : Slot) (f : Callback) (a : Arg) (w : World) :
  Node.call slot f a w
  = Node.mkWorld (Node.db w) (Node.queue w)
                 (Node.statements w ++ map request (fn_body f))
                 (Node.errorOccurred w)
                 (Node.trace w ++ call_events slot f a).
Proof.
  unfold Node.call. rewrite registered_spec. unfold Node.log, call_events, registrations.
  simpl. f_equal. rewrite <- !app_assoc. reflexivity.
Qed.

(** [forEach] sees [errorOccurred] false at every statement: no
    completion closure has run yet, so every statement is submitted. *)
Lemma forEach_spec (l : list StatementRequest) (w : World) :
  Node.errorOccurred w = false ->
  fold_left (@Node.each_statement DB) l w
  = Node.mkWorld (Node.db w)
                 (Node.queue w ++ map (fun s => Node.mkPending (all_of s) (Some s)) l)
                 (Node.statements w) false
                 (Node.trace w ++ map Dispatched (map all_of l)).
Proof.
  revert w. induction l as [|s l IH]; intros w Hw; simpl.
  - rewrite !app_nil_r. destruct w; simpl in *; now subst.
  - unfold Node.each_statement at 2. rewrite Hw.
    rewrite IH by exact Hw. simpl. now rewrite <- !app_assoc.
Qed.

Lemma begun_spec (readOnly : bool) (callback : Callback)
      (errorCallback successCallback : option Callback) (d : DB) :
  Node.begun readOnly callback errorCallback successCallback d
  = Node.mkWorld d [] (map request (fn_body callback)) false
                 ([TickScheduled] ++ call_events Builder callback ArgTx).
Proof.
  unfold Node.begun, Node.Transaction. rewrite call_spec. reflexivity.
Qed.

Lemma tick_spec (readOnly : bool) (successCallback : option Callback) (w : World) :
  Node.tick readOnly successCallback w
  = Node.mkWorld (Node.db w)
                 (Node.queue w ++ tick_queue readOnly (Node.statements w))
                 (Node.statements w ++ optional_body successCallback)
                 false
                 (Node.trace w ++ [TickStarted]
                  ++ map Dispatched (tick_dispatches readOnly (Node.statements w))
                  ++ optional_call TxSuccess successCallback NoArg).
Proof.
  unfold Node.tick.
  set (w1 := Node.set_errorOccurred false _).
  assert (H1 : Node.errorOccurred w1 = false) by reflexivity.
  rewrite (forEach_spec (Node.statements w1) w1 H1).
  unfold tick_queue, tick_dispatches, control.
  destruct readOnly, successCallback as [f|]; simpl;
    unfold Node.db_run, Node.submit, Node.log; simpl;
    rewrite ?call_spec; simpl; f_equal;
    rewrite ?map_app, ?app_nil_r, <- ?app_assoc; simpl;
    rewrite <- ?app_assoc; reflexivity.
Qed.

Lemma complete_spec (w : World) (p : Node.Pending) :
  let (d', r) := perform (Node.db w) (Node.op p) in
  Node.complete perform w p
  = Node.mkWorld d' (Node.queue w)
                 (Node.statements w ++ optional_late (Node.captured p) r)
                 (match Node.captured p, r with
                  | Some _, Failed _ => true
                  | _, _ => Node.errorOccurred w
                  end)
                 (Node.trace w ++ Resolved (Node.op p) r
                  :: optional_reaction (Node.captured p) r).
Proof.
  unfold Node.complete.
  destruct (perform (Node.db w) (Node.op p)) as [d' r].
  destruct (Node.captured p) as [s|]; simpl.
  - unfold Node.on_complete, reaction, late.
    destruct r as [err|this result].
    + destruct (errorCallback s) as [f|]; simpl;
        rewrite ?call_spec; unfold Node.set_errorOccurred, Node.log; simpl;
        rewrite ?app_nil_r, <- ?app_assoc; reflexivity.
    + destruct (successCallback s) as [f|]; simpl;
        rewrite ?call_spec; unfold Node.log; simpl;
        rewrite ?app_nil_r, <- ?app_assoc; reflexivity.
  - unfold Node.log; simpl. now rewrite app_nil_r.
Qed.

(** The driver's work through the queue submits nothing and only appends
    to the trace and to [statements]. *)
Lemma completions_spec (q : list Node.Pending) (w : World) :
  let w' := Node.work perform q w in
  Node.trace w' = Node.trace w ++ completions perform (Node.db w) q
  /\ Node.statements w' = Node.statements w ++ late_statements perform (Node.db w) q
  /\ Node.queue w' = Node.queue w.
Proof.
  revert w. induction q as [|p q IH]; intros w; simpl.
  - now rewrite !app_nil_r.
  - pose proof (complete_spec w p) as Hc.
    destruct (perform (Node.db w) (Node.op p)) as [d' r]. cbn [snd].
    destruct (Node.unhandled p r) as [err|].
    + rewrite Hc. unfold Node.log. cbn [Node.trace Node.statements Node.queue].
      rewrite app_nil_r, <- !app_assoc. repeat split; reflexivity.
    + specialize (IH (Node.complete perform w p)). simpl in IH.
      destruct IH as (Ht & Hs & Hq). rewrite Ht, Hs, Hq, Hc. simpl.
      now rewrite <- !app_assoc.
Qed.

(** The trace of a transaction is the one written out in [node_trace]. *)
Lemma run_trace (readOnly : bool) (callback : Callback)
      (errorCallback successCallback : option Callback) (d : DB) :
  Node.trace (Node.run perform readOnly callback errorCallback successCallback d)
  = node_trace perform readOnly callback successCallback d.
Proof.
  unfold Node.run, Node.drain, Node.after_tick.
  rewrite begun_spec, tick_spec. simpl.
  match goal with
  | |- Node.trace (Node.work _ ?q ?w) = _ =>
      destruct (completions_spec q w) as (Ht & _ & _)
  end.
  simpl in Ht. rewrite Ht. unfold node_trace. flatten_lists. reflexivity.
Qed.

Lemma run_statements (readOnly : bool) (callback : Callback)
      (errorCallback successCallback : option Callback) (d : DB) :
  Node.statements (Node.run perform readOnly callback errorCallback successCallback d)
  = map request (fn_body callback) ++ optional_body successCallback
    ++ late_statements perform d (tick_queue readOnly (map request (fn_body callback))).
Proof.
  unfold Node.run, Node.drain, Node.after_tick.
  rewrite begun_spec, tick_spec. simpl.
  match goal with
  | |- Node.statements (Node.work _ ?q ?w) = _ =>
      destruct (completions_spec q w) as (_ & Hs & _)
  end.
  simpl in Hs. rewrite Hs. flatten_lists. reflexivity.
Qed.

(** None of the events that completions add is a dispatch, a tick or a
    transaction-level call. *)
Lemma call_events_quiet (slot : Slot) (f : Callback) (a : Arg) :
  dispatches (call_events slot f a) = [].
Proof.
  unfold call_events, registrations. simpl. rewrite dispatches_app. simpl.
  rewrite app_nil_r. induction (fn_body f) as [|c l IH]; simpl; auto.
Qed.

Lemma call_events_shape (slot : Slot) (f : Callback) (a : Arg) (P : Event -> bool) :
  (forall s, P (Registered s) = false) ->
  existsb P (call_events slot f a)
  = P (Called slot (fn_name f) a) || P (Returned slot (fn_name f)).
Proof.
  intros HP. unfold call_events, registrations. simpl. f_equal.
  rewrite existsb_app. simpl. rewrite orb_false_r.
  replace (existsb P (map _ (fn_body f))) with false; [reflexivity|].
  induction (fn_body f) as [|c l IH]; simpl; [reflexivity|]. now rewrite HP.
Qed.

(** To prove something of what the queue adds to the trace: prove it of
    nothing, of an uncaught exception alone, and of one completion with
    its reaction put in front. *)
Lemma completions_induction (P : Trace -> Prop) :
  P [] ->
  (forall err, P [Uncaught err]) ->
  (forall p r rest,
      P rest ->
      P ([Resolved (Node.op p) r] ++ optional_reaction (Node.captured p) r ++ rest)) ->
  forall q d, P (completions perform d q).
Proof.
  intros Hnil Hun Hstep. induction q as [|p q IH]; intros d; simpl; [exact Hnil|].
  destruct (perform d (Node.op p)) as [d' r].
  apply (Hstep p r). destruct (Node.unhandled p r); [apply Hun | apply IH].
Qed.

Lemma optional_reaction_quiet (s : option StatementRequest) (r : Completion) :
  dispatches (optional_reaction s r) = [].
Proof.
  destruct s as [s|]; [|reflexivity].
  destruct r as [err|this result]; cbn [optional_reaction reaction].
  - destruct (errorCallback s); [apply call_events_quiet | reflexivity].
  - destruct (successCallback s); [apply call_events_quiet | reflexivity].
Qed.

Lemma completions_quiet (q : list Node.Pending) (d : DB) :
  dispatches (completions perform d q) = [].
Proof.
  apply completions_induction; [reflexivity | reflexivity |].
  intros p r rest H.
  now rewrite !dispatches_app, optional_reaction_quiet, H.
Qed.

(** Everything a transaction hands to the driver, in order. *)
Lemma run_dispatches (readOnly : bool) (callback : Callback)
      (errorCallback successCallback : option Callback) (d : DB) :
  dispatches (Node.trace (Node.run perform readOnly callback errorCallback
                                   successCallback d))
  = tick_dispatches readOnly (map request (fn_body callback)).
Proof.
  rewrite run_trace. unfold node_trace.
  rewrite !dispatches_app, dispatches_map_Dispatched, completions_quiet.
  rewrite (call_events_quiet Builder callback ArgTx).
  destruct successCallback as [f|]; cbn [optional_call];
    rewrite ?(call_events_quiet TxSuccess); simpl;
    rewrite ?app_nil_r; reflexivity.
Qed.

Lemma call_events_queued (slot : Slot) (f : Callback) (a : Arg) :
  queued_event (Called slot (fn_name f) a) ->
  Forall queued_event (call_events slot f a).
Proof.
  intros H. unfold call_events, registrations. constructor; [exact H|].
  apply Forall_app. split.
  - induction (fn_body f) as [|c l IH]; simpl; constructor; [constructor | exact IH].
  - repeat constructor.
Qed.

Lemma completions_queued (q : list Node.Pending) (d : DB) :
  Forall queued_event (completions perform d q).
Proof.
  revert d. induction q as [|p q IH]; intros d; simpl; [constructor|].
  destruct (perform d (Node.op p)) as [d' r].
  constructor; [constructor|]. apply Forall_app. split.
  2:{ destruct (Node.unhandled p r); [repeat constructor | apply IH]. }
  destruct (Node.captured p) as [s|]; [|constructor].
  destruct r as [err|this result]; cbn [optional_reaction reaction].
  - destruct (errorCallback s); [|constructor].
    apply call_events_queued. constructor.
  - destruct (successCallback s); [|constructor].
    apply call_events_queued. constructor.
Qed.

Lemma node_trace_queued (readOnly : bool) (callback : Callback)
      (successCallback : option Callback) (d : DB) :
  Forall queued_event (node_trace perform readOnly callback successCallback d).
Proof.
  unfold node_trace. repeat (apply Forall_app; split).
  - repeat constructor.
  - apply call_events_queued. constructor.
  - repeat constructor.
  - unfold tick_dispatches, control. rewrite !map_app. repeat (apply Forall_app; split).
    + destruct readOnly; repeat constructor.
    + induction (map request (fn_body callback)) as [|s l IH]; simpl;
        constructor; [constructor | exact IH].
    + destruct readOnly; repeat constructor.
  - destruct successCallback as [f|]; [|constructor].
    apply call_events_queued. constructor.
  - apply completions_queued.
Qed.

(** Every result set delivered while the queue is worked through was
    built from the completion reported just before. *)
Lemma completions_delivered (q : list Node.Pending) (d : DB) (rs : ResultSet) :
  In rs (delivered (completions perform d q)) ->
  exists c this result,
    In (Resolved c (Done this result)) (completions perform d q)
    /\ rs = Node.result_set this result.
Proof.
  revert d. induction q as [|p q IH]; intros d; simpl; [tauto|].
  destruct (perform d (Node.op p)) as [d' r]. simpl.
  unfold delivered. rewrite flat_map_app, in_app_iff. intros [H|H].
  - destruct (Node.captured p) as [s|]; [|contradiction].
    destruct r as [err|this result]; cbn [optional_reaction reaction] in H.
    + exfalso. destruct (errorCallback s) as [f|]; [|contradiction].
      unfold optional_call, call_events, registrations in H. simpl in H.
      rewrite flat_map_app, in_app_iff in H. destruct H as [H|H]; [|contradiction].
      induction (fn_body f) as [|c l IHl]; simpl in H; auto.
    + destruct (successCallback s) as [f|]; [|contradiction].
      unfold optional_call, call_events, registrations in H. simpl in H.
      destruct H as [H|H].
      * exists (Node.op p), this, result. split; [now left | now symmetry].
      * exfalso. rewrite flat_map_app, in_app_iff in H.
        destruct H as [H|H]; [|contradiction].
        induction (fn_body f) as [|c l IHl]; simpl in H; auto.
  - destruct (Node.unhandled p r); [contradiction|].
    destruct (IH d' H) as (c & this & result & Hin & Hrs).
    exists c, this, result. split; [|exact Hrs].
    right. apply in_or_app. now right.
Qed.
End NodeSteps.

(** ** Induction on caller-supplied functions *)

Section CallbackInduction.
Variable P : Callback -> Prop.
Variable Q : SqlCall -> Prop.
Hypothesis P_Fn : forall name body, Forall Q body -> P (Fn name body).
Hypothesis Q_ExecuteSql :
  forall s p ok ko, option_all P ok -> option_all P ko -> Q (ExecuteSql s p ok ko).

Fixpoint Callback_induction (f : Callback) : P f :=
  match f with
  | Fn name body =>
      @P_Fn name body
           ((fix each (l : list SqlCall) : Forall Q l :=
               match l with
               | [] => Forall_nil Q
               | c :: l' => Forall_cons c (SqlCall_induction c) (each l')
               end) body)
  end
with SqlCall_induction (c : SqlCall) : Q c :=
  match c with
  | ExecuteSql s p ok ko =>
      @Q_ExecuteSql s p ok ko
        (match ok as o return option_all P o with
         | Some f => Callback_induction f
         | None => I
         end)
        (match ko as o return option_all P o with
         | Some f => Callback_induction f
         | None => I
         end)
  end.
End CallbackInduction.

(** ** The synchronous variant, step by step *)

Section BrowserSteps.
Variable DB : Type.
Variable exec : DB -> string -> list Value -> DB * (list Row + Error).
Variable db_changes : DB -> Z + Error.
Variable db_lastInsertRowid : DB -> Z + Error.

Let World := Browser.World DB.
Let executeSql := Browser.executeSql exec db_changes db_lastInsertRowid.
Let call := Browser.call exec db_changes db_lastInsertRowid.
Let inline := inline_event.

Definition emits_inline (c : SqlCall) : Prop :=
  forall w : World, exists evs,
    Browser.trace (executeSql c w) = Browser.trace w ++ evs
    /\ Forall inline evs.

Definition calls_inline (f : Callback) : Prop :=
  forall slot a (w : World), exists evs,
    Browser.trace (call slot f a w)
    = Browser.trace w ++ Called slot (fn_name f) a :: evs ++ [Returned slot (fn_name f)]
    /\ Forall inline evs.

Lemma each_inline (body : list SqlCall) :
  Forall emits_inline body ->
  forall w : World, exists evs,
    Browser.trace (fold_left (fun w c => executeSql c w) body w)
    = Browser.trace w ++ evs
    /\ Forall inline evs.
Proof.
  induction 1 as [|c l Hc Hl IH]; intros w; simpl.
  - exists []. now rewrite app_nil_r.
  - destruct (Hc w) as (e1 & H1 & F1).
    destruct (IH (executeSql c w)) as (e2 & H2 & F2).
    exists (e1 ++ e2). rewrite H2, H1, app_assoc. split; [reflexivity|].
    apply Forall_app. now split.
Qed.

Lemma call_unfold (slot : Slot) (name : string) (body : list SqlCall)
      (a : Arg) (w : World) :
  call slot (Fn name body) a w
  = Browser.log (Returned slot name)
      (fold_left (fun w c => executeSql c w) body
                 (Browser.log (Called slot name a) w)).
Proof.
  reflexivity.
Qed.

(** The [catch] block. *)
Definition caught (ko : option Callback) (err : Error) (w : World) : World :=
  match ko with
  | Some g => call StmtError g (ArgError err) w
  | None => w
  end.

Lemma executeSql_unfold (s : string) (p : option (list Value))
      (ok ko : option Callback) (w : World) :
  executeSql (ExecuteSql s p ok ko) w
  = let (w', r) := Browser.db_exec exec s (default_params p) w in
    match r with
    | inl result =>
        match ok with
        | Some f =>
            match Browser.result_set db_changes db_lastInsertRowid
                                     (Browser.db w') result with
            | inl rs => call StmtSuccess f (ArgResult rs) w'
            | inr err => caught ko err (Browser.log (Raised err) w')
            end
        | None => w'
        end
    | inr err => caught ko err w'
    end.
Proof. reflexivity. Qed.

Lemma result_set_inl (d : DB) (result : list Row) (rs : ResultSet) :
  Browser.result_set db_changes db_lastInsertRowid d result = inl rs ->
  exists n k,
    db_changes d = inl n /\ db_lastInsertRowid d = inl k
    /\ rs = mkResultSet n (Some k) (row_list result).
Proof.
  unfold Browser.result_set.
  destruct (db_changes d) as [n|e]; [|discriminate].
  destruct (db_lastInsertRowid d) as [k|e]; [|discriminate].
  intros H. inversion H. now exists n, k.
Qed.

Lemma db_exec_trace (s : string) (bind : list Value) (w : World) :
  exists e,
    Browser.trace (fst (Browser.db_exec exec s bind w))
    = Browser.trace w ++ [Dispatched (Exec s bind); e]
    /\ match snd (Browser.db_exec exec s bind w) with
       | inl result => e = ExecReturned (Exec s bind) result
       | inr err => e = ExecThrew (Exec s bind) err
       end.
Proof.
  unfold Browser.db_exec. simpl.
  destruct (exec (Browser.db w) s bind) as [d [result|err]]; simpl;
    eexists; (split; [|reflexivity]); now rewrite <- app_assoc.
Qed.

Lemma inline_both : (forall f, calls_inline f) /\ (forall c, emits_inline c).
Proof.
  assert (HP : forall name body, Forall emits_inline body -> calls_inline (Fn name body)).
  { intros name body Hb slot a w. rewrite call_unfold.
    destruct (each_inline Hb (Browser.log (Called slot name a) w)) as (evs & He & Fe).
    exists evs. cbn [Browser.log Browser.trace Browser.db fn_name].
    rewrite He. cbn [Browser.log Browser.trace Browser.db].
    split; [|exact Fe]. now rewrite <- !app_assoc. }
  assert (Hcaught : forall ko err (w : World),
            option_all calls_inline ko ->
            exists evs,
              Browser.trace (caught ko err w) = Browser.trace w ++ evs
              /\ Forall inline evs).
  { intros ko err w Hko. destruct ko as [f|]; cbn [option_all caught] in *.
    - destruct (Hko StmtError (ArgError err) w) as (evs & Hc & Fc).
      eexists. split; [exact Hc|].
      constructor; [constructor|]. apply Forall_app. split; [exact Fc|].
      repeat constructor.
    - exists []. now rewrite app_nil_r. }
  assert (HQ : forall s p ok ko, option_all calls_inline ok ->
                 option_all calls_inline ko -> emits_inline (ExecuteSql s p ok ko)).
  { intros s p ok ko Hok Hko w. rewrite executeSql_unfold.
    destruct (db_exec_trace s (default_params p) w) as (e & Ht & He).
    destruct (Browser.db_exec exec s (default_params p) w) as [w' [result|err]];
      cbn [fst snd] in *; subst e.
    - destruct ok as [f|]; cbn [option_all] in Hok.
      + destruct (Browser.result_set db_changes db_lastInsertRowid
                                     (Browser.db w') result) as [rs|err] eqn:E.
        * destruct (result_set_inl _ _ E) as (n & k & _ & _ & ->).
          destruct (Hok StmtSuccess
                        (ArgResult (mkResultSet n (Some k) (row_list result))) w')
            as (evs & Hc & Fc).
          eexists. fold call in Hc. rewrite Hc, Ht, <- app_assoc.
          split; [reflexivity|].
          repeat constructor. apply Forall_app. split; [exact Fc|]. repeat constructor.
        * destruct (Hcaught ko err (Browser.log (Raised err) w') Hko)
            as (evs & Hc & Fc).
          eexists. rewrite Hc. cbn [Browser.log Browser.trace].
          rewrite Ht, <- !app_assoc. split; [reflexivity|].
          repeat constructor. exact Fc.
      + eexists. split; [exact Ht|]. repeat constructor.
    - destruct (Hcaught ko err w' Hko) as (evs & Hc & Fc).
      eexists. rewrite Hc, Ht, <- app_assoc. split; [reflexivity|].
      repeat constructor. exact Fc. }
  split.
  - exact (@Callback_induction _ _ HP HQ).
  - exact (@SqlCall_induction _ _ HP HQ).
Qed.
End BrowserSteps.

(** ** Reading off a classified trace *)

Lemma flat_map_nil {A B : Type} (f : A -> list B) (P : A -> Prop) (l : list A) :
  (forall x, P x -> f x = []) -> Forall P l -> flat_map f l = [].
Proof.
  intros Hf. induction 1 as [|x l Hx Hl IH]; simpl; [reflexivity|].
  now rewrite (Hf x Hx), IH.
Qed.

Lemma flat_map_Forall {A B : Type} (f : A -> list B) (P : A -> Prop)
      (Q : B -> Prop) (l : list A) :
  (forall x, P x -> Forall Q (f x)) -> Forall P l -> Forall Q (flat_map f l).
Proof.
  intros Hf. induction 1 as [|x l Hx Hl IH]; simpl; [constructor|].
  apply Forall_app. split; [now apply Hf | exact IH].
Qed.

Lemma existsb_false {A : Type} (f : A -> bool) (P : A -> Prop) (l : list A) :
  (forall x, P x -> f x = false) -> Forall P l -> existsb f l = false.
Proof.
  intros Hf. induction 1 as [|x l Hx Hl IH]; simpl; [reflexivity|].
  now rewrite (Hf x Hx), IH.
Qed.

Lemma since_quiet (P : Event -> bool) (tr : Trace) :
  dispatches tr = [] -> dispatches (since P tr) = [].
Proof.
  induction tr as [|e tr IH]; simpl; [reflexivity|].
  intros H. apply app_eq_nil in H. destruct H as [He Ht].
  destruct (P e); [exact Ht | now apply IH].
Qed.

Lemma row_list_well_formed (n : Z) (k : option Z) (result : list Row) :
  well_formed (mkResultSet n k (row_list result)).
Proof. split; reflexivity. Qed.

(** The trace of a browser transaction: the builder's call, the events of
    its statements, the builder's return. *)
Lemma browser_run_shape (DB : Type)
      (exec : DB -> string -> list Value -> DB * (list Row + Error))
      (db_changes db_lastInsertRowid : DB -> Z + Error)
      (readOnly : bool) (callback : Callback)
      (errorCallback successCallback : option Callback) (d : DB) :
  exists evs,
    Browser.trace (Browser.run exec db_changes db_lastInsertRowid readOnly
                               callback errorCallback successCallback d)
    = Called Builder (fn_name callback) ArgTx :: evs
      ++ [Returned Builder (fn_name callback)]
    /\ Forall inline_event evs.
Proof.
  unfold Browser.run, Browser.Transaction.
  destruct (inline_both exec db_changes db_lastInsertRowid) as [Hcall _].
  destruct (Hcall callback Builder ArgTx (Browser.mkWorld d [])) as (evs & He & Fe).
  exists evs. split; [exact He | exact Fe].
Qed.

(** ** The transaction-level error callback *)

(** C5. In both variants, for every engine and every transaction, the
    [errorCallback] given to [transaction] / [readTransaction] is never
    called, and an error is only ever handed to a statement's own error
    callback. *)
Theorem transaction_errorCallback_never_called
        (DB1 DB2 : Type)
        (perform : DB1 -> DriverCall -> DB1 * Completion)
        (exec : DB2 -> string -> list Value -> DB2 * (list Row + Error))
        (db_changes db_lastInsertRowid : DB2 -> Z + Error)
        (readOnly : bool) (callback : Callback)
        (errorCallback successCallback : option Callback)
        (d1 : DB1) (d2 : DB2) :
  let node :=
    Node.trace (Node.run perform readOnly callback errorCallback successCallback d1) in
  let browser :=
    Browser.trace (Browser.run exec db_changes db_lastInsertRowid readOnly
                               callback errorCallback successCallback d2) in
  calls_of TxError node = []
  /\ calls_of TxError browser = []
  /\ Forall (fun p => fst p = StmtError) (error_deliveries node)
  /\ Forall (fun p => fst p = StmtError) (error_deliveries browser).
Proof.
  intros node browser.
  assert (Hn : Forall queued_event node).
  { subst node. rewrite run_trace. apply node_trace_queued. }
  destruct (browser_run_shape exec db_changes db_lastInsertRowid readOnly callback
                              errorCallback successCallback d2) as (evs & He & Fe).
  fold browser in He.
  assert (Hb : Forall (fun e => queued_event e
                                \/ inline_event e) browser).
  { rewrite He. constructor; [left; constructor|].
    apply Forall_app. split.
    - eapply Forall_impl; [|exact Fe]. intros e H. now right.
    - constructor; [left; constructor | constructor]. }
  repeat split.
  - eapply flat_map_nil; [|exact Hn]. intros e H. now destruct H.
  - eapply flat_map_nil; [|exact Hb]. intros e [H|H]; now destruct H.
  - eapply flat_map_Forall; [|exact Hn].
    intros e H. destruct H; simpl; repeat constructor.
  - eapply flat_map_Forall; [|exact Hb].
    intros e [H|H]; destruct H; simpl; repeat constructor.
Qed.

(** ** Statements registered after the tick *)

Lemma registrations_quiet (f : Callback) (P : Event -> bool) :
  (forall s, P (Registered s) = false) ->
  existsb P (registrations f) = false.
Proof.
  intros HP. unfold registrations.
  induction (fn_body f) as [|c l IH]; simpl; [reflexivity|]. now rewrite HP.
Qed.

Lemma map_Dispatched_quiet (P : Event -> bool) (l : list DriverCall) :
  (forall c, P (Dispatched c) = false) ->
  existsb P (map Dispatched l) = false.
Proof.
  intros HP. induction l as [|c l IH]; simpl; [reflexivity|]. now rewrite HP.
Qed.

Lemma filter_statement_dispatches (readOnly : bool) (l : list StatementRequest) :
  filter (fun c => negb (is_run c)) (tick_dispatches readOnly l) = map all_of l.
Proof.
  unfold tick_dispatches, control. rewrite !filter_app.
  assert (H : filter (fun c => negb (is_run c)) (map all_of l) = map all_of l).
  { induction l as [|s l IH]; simpl; [reflexivity | now rewrite IH]. }
  rewrite H. destruct readOnly; simpl; now rewrite app_nil_r.
Qed.

(** C10. In the queued variant the statements handed to the driver are
    exactly the [statements] array as it stands when the tick iterates it,
    in order; whatever a callback registers afterwards is appended to the
    array, and from the first such registration on nothing is dispatched
    any more. *)
Theorem late_statement_never_dispatched
        (DB : Type) (perform : DB -> DriverCall -> DB * Completion)
        (readOnly : bool) (callback : Callback)
        (errorCallback successCallback : option Callback) (d : DB) :
  let snapshot :=
    Node.statements (Node.begun readOnly callback errorCallback successCallback d) in
  let w := Node.run perform readOnly callback errorCallback successCallback d in
  statement_dispatches (Node.trace w) = map all_of snapshot
  /\ Node.statements w
     = snapshot ++ optional_body successCallback
       ++ late_statements perform d (tick_queue readOnly snapshot)
  /\ dispatches (since is_registration (since is_tick (Node.trace w))) = [].
Proof.
  intros snapshot w. subst snapshot w. rewrite begun_spec. simpl Node.statements.
  split; [|split].
  - unfold statement_dispatches. rewrite run_dispatches.
    apply filter_statement_dispatches.
  - apply run_statements.
  - rewrite run_trace. unfold node_trace.
    rewrite since_app_miss by reflexivity.
    rewrite since_app_miss.
    2:{ unfold call_events. simpl. rewrite existsb_app. simpl.
        now rewrite registrations_quiet. }
    simpl since.
    rewrite since_app_miss by (now apply map_Dispatched_quiet).
    apply since_quiet. rewrite dispatches_app, completions_quiet, app_nil_r.
    destruct successCallback as [f|]; [apply call_events_quiet | reflexivity].
Qed.

(** The sample transaction whose insert callback registers a second
    insert: the second insert is in the array and was never dispatched. *)
Example late_insert_is_registered_only :
  let w := Node.transaction Sample.perform Sample.insert_then_more None None
                            Sample.empty in
  map sql (Node.statements w) = [Sample.insert_user; Sample.insert_user]
  /\ dispatches (Node.trace w)
     = [Run "BEGIN TRANSACTION;"; All Sample.insert_user [VText "Alice"];
        Run "COMMIT;"].
Proof. split; reflexivity. Qed.

(** ** BEGIN and COMMIT *)

(** The SQL text of an operation, whichever call hands it over. *)
Definition sql_of (c : DriverCall) : string :=
  match c with
  | Run s | All s _ | Exec s _ => s
  end.

(** C3. Browser variant, a read-write transaction of one successful
    insert: the insert is the only thing handed to the driver, by any of
    its calls; no BEGIN precedes it and no COMMIT follows it.  The queued
    variant brackets the same transaction. *)
Theorem browser_transaction_without_begin_commit :
  let browser :=
    Browser.trace (Browser.transaction Sample.exec Sample.changes_count
                     Sample.last_rowid Sample.one_insert
                     Sample.on_error Sample.on_success Sample.empty) in
  let node :=
    Node.trace (Node.transaction Sample.perform Sample.one_insert
                                 Sample.on_error Sample.on_success Sample.empty) in
  error_free browser
  /\ dispatches browser = [Exec Sample.insert_user [VText "Alice"]]
  /\ map sql_of (dispatches browser) = [Sample.insert_user]
  /\ map sql_of (dispatches node)
     = ["BEGIN TRANSACTION;"; Sample.insert_user; "COMMIT;"]
  /\ bracketed node.
Proof.
  intros browser node.
  split; [reflexivity|]. split; [reflexivity|]. split; [reflexivity|].
  split; [reflexivity|].
  exists [All Sample.insert_user [VText "Alice"]]. split; reflexivity.
Qed.

(** ** Registration and execution *)

Lemma inline_not_builder_return (evs : Trace) :
  Forall inline_event evs ->
  existsb is_builder_return evs = false.
Proof.
  apply existsb_false. intros e H. now destruct H.
Qed.

(** C6, as the code has it. In the queued variant the builder returns and
    nothing has been dispatched by then.  In the browser variant every
    dispatch of the transaction happens while the builder is still
    running: nothing is left to dispatch once it has returned. *)
Theorem dispatch_and_builder_return
        (DB1 DB2 : Type)
        (perform : DB1 -> DriverCall -> DB1 * Completion)
        (exec : DB2 -> string -> list Value -> DB2 * (list Row + Error))
        (db_changes db_lastInsertRowid : DB2 -> Z + Error)
        (readOnly : bool) (callback : Callback)
        (errorCallback successCallback : option Callback)
        (d1 : DB1) (d2 : DB2) :
  let node :=
    Node.trace (Node.run perform readOnly callback errorCallback successCallback d1) in
  let browser :=
    Browser.trace (Browser.run exec db_changes db_lastInsertRowid readOnly
                               callback errorCallback successCallback d2) in
  (existsb is_builder_return node = true /\ registration_first node)
  /\ (existsb is_builder_return browser = true
      /\ dispatches (upto is_builder_return browser) = dispatches browser
      /\ dispatches (since is_builder_return browser) = []).
Proof.
  intros node browser. split.
  - assert (Hb : existsb is_builder_return
                   ([TickScheduled] ++ call_events Builder callback ArgTx) = true).
    { unfold call_events. simpl. rewrite existsb_app. simpl. apply orb_true_r. }
    subst node. rewrite run_trace. unfold node_trace, registration_first.
    rewrite app_assoc. split.
    + rewrite existsb_app, Hb. reflexivity.
    + rewrite upto_app_hit by exact Hb.
      unfold call_events. simpl.
      rewrite upto_app_miss by (now apply registrations_quiet). simpl.
      rewrite app_nil_r. unfold registrations.
      induction (fn_body callback) as [|c l IH]; simpl; auto.
  - destruct (browser_run_shape exec db_changes db_lastInsertRowid readOnly callback
                                errorCallback successCallback d2) as (evs & He & Fe).
    fold browser in He. rewrite He.
    pose proof (inline_not_builder_return Fe) as Hq.
    simpl. rewrite existsb_app, Hq. simpl.
    rewrite upto_app_miss by exact Hq. rewrite since_app_miss by exact Hq. simpl.
    rewrite !dispatches_app. simpl. now rewrite !app_nil_r.
Qed.

(** C6 as stated fails in the browser variant: the insert is handed to
    the driver, and has returned, before the builder returns. *)
Lemma browser_dispatches_inside_builder :
  let tr := Browser.trace (Browser.transaction Sample.exec Sample.changes_count
                             Sample.last_rowid Sample.one_insert
                             Sample.on_error Sample.on_success Sample.empty) in
  tr = [Called Builder "build" ArgTx;
        Dispatched (Exec Sample.insert_user [VText "Alice"]);
        ExecReturned (Exec Sample.insert_user [VText "Alice"]) [];
        Returned Builder "build"]
  /\ ~ registration_first tr.
Proof.
  split; [reflexivity|]. intros H. discriminate H.
Qed.

(** ** Result sets *)

Lemma inline_delivered (evs : Trace) :
  Forall inline_event evs ->
  Forall (fun rs => exists n k result,
            rs = mkResultSet n (Some k) (row_list result))
         (delivered evs).
Proof.
  apply flat_map_Forall. intros e H. destruct H; simpl; repeat constructor.
  now exists n, k, result.
Qed.

Lemma queued_delivered (tr : Trace) :
  Forall queued_event tr -> Forall well_formed (delivered tr).
Proof.
  apply flat_map_Forall. intros e H. destruct H; simpl; repeat constructor.
Qed.

Lemma node_delivered (DB : Type) (perform : DB -> DriverCall -> DB * Completion)
      (readOnly : bool) (callback : Callback)
      (successCallback : option Callback) (d : DB) :
  delivered (node_trace perform readOnly callback successCallback d)
  = delivered (completions perform d
                 (tick_queue readOnly (map request (fn_body callback)))).
Proof.
  unfold node_trace, delivered. rewrite !flat_map_app.
  assert (Hc : forall slot f a, slot <> StmtSuccess ->
                 flat_map (fun e => match e with
                                    | Called StmtSuccess _ (ArgResult rs) => [rs]
                                    | _ => []
                                    end) (call_events slot f a) = []).
  { intros slot f a Hs. unfold call_events, registrations. simpl.
    rewrite flat_map_app. simpl. rewrite app_nil_r.
    replace (flat_map _ (map _ (fn_body f))) with (@nil ResultSet).
    - destruct slot; try reflexivity. now elim Hs.
    - induction (fn_body f) as [|c l IH]; simpl; auto. }
  rewrite Hc by discriminate.
  replace (flat_map _ (map Dispatched _)) with (@nil ResultSet).
  2:{ induction (tick_dispatches _ _) as [|c l IH]; simpl; auto. }
  destruct successCallback as [f|]; cbn [optional_call];
    rewrite ?Hc by discriminate; reflexivity.
Qed.

(** ** The creation callback *)

(** C9, as the code has it. In the browser variant, when the connection
    is constructed, [creationCallback] is called exactly once, with the
    connection, before [openDatabase] returns; when the constructor throws
    there is neither a call nor a return.  In the queued variant
    [openDatabase] returns with no call made: the open-completion callback
    makes it later, once, and only when the open reported no error; when
    the open reported an error, that error is written to the console. *)
Theorem creationCallback_calls
        (DB1 DB2 : Type)
        (connect1 : string -> DB1 * option Error)
        (connect2 : string -> DB2 + Error)
        (name : string) (f : Callback) :
  let browser := Browser.openDatabase connect2 name (Some f) in
  calls_of Creation (upto is_handle_return browser)
  = match connect2 name with
    | inl _ => [(fn_name f, ArgDb)]
    | inr _ => []
    end
  /\ calls_of Creation (since is_handle_return browser) = []
  /\ existsb is_handle_return browser
     = match connect2 name with inl _ => true | inr _ => false end
  /\ calls_of Creation (Node.openDatabase name (Some f)) = []
  /\ existsb is_handle_return (Node.openDatabase name (Some f)) = true
  /\ calls_of Creation (Node.open_completed connect1 name (Some f))
     = match snd (connect1 name) with
       | None => [(fn_name f, ArgDb)]
       | Some _ => []
       end
  /\ logged_errors (Node.open_completed connect1 name (Some f))
     = match snd (connect1 name) with
       | None => []
       | Some err => [err]
       end.
Proof.
  intros browser. subst browser. unfold Browser.openDatabase, Node.open_completed.
  destruct (connect2 name) as [d|err], (snd (connect1 name)) as [err'|];
    repeat split; reflexivity.
Qed.

(** C9 as stated fails in the queued variant: [openDatabase] has
    returned its handle and the creation callback has not been called. *)
Lemma node_open_returns_before_creationCallback :
  let tr := Node.open_trace Sample.connect "test.db" Sample.on_created in
  tr = [OpenRequested "test.db"; HandleReturned; Opened None;
        Called Creation "onCreated" ArgDb; Returned Creation "onCreated"]
  /\ calls_of Creation (upto is_handle_return tr) = []
  /\ calls_of Creation (since is_handle_return tr) = [("onCreated", ArgDb)].
Proof. repeat split; reflexivity. Qed.

(** ** Where the queued variant departs from its own guards

    The tick tests [errorOccurred] while it submits the statements and
    again before COMMIT and before the success callback.  Only a
    completion closure ever sets the flag, and none has run by then. *)

Lemma calls_of_app (slot : Slot) (a b : Trace) :
  calls_of slot (a ++ b) = calls_of slot a ++ calls_of slot b.
Proof. apply flat_map_app. Qed.

Lemma calls_of_map_Dispatched (slot : Slot) (l : list DriverCall) :
  calls_of slot (map Dispatched l) = [].
Proof. induction l as [|c l IH]; simpl; [reflexivity | exact IH]. Qed.

Lemma success_calls_of_call_events (slot : Slot) (f : Callback) (a : Arg) :
  calls_of TxSuccess (call_events slot f a)
  = match slot with TxSuccess => [(fn_name f, a)] | _ => [] end.
Proof.
  unfold call_events, registrations.
  change (Called slot (fn_name f) a :: ?l) with ([Called slot (fn_name f) a] ++ l).
  rewrite !calls_of_app.
  replace (calls_of TxSuccess (map _ (fn_body f))) with (@nil (string * Arg)).
  - destruct slot; reflexivity.
  - induction (fn_body f) as [|c l IH]; simpl; auto.
Qed.

Lemma calls_of_completions (DB : Type) (perform : DB -> DriverCall -> DB * Completion)
      (q : list Node.Pending) (d : DB) :
  calls_of TxSuccess (completions perform d q) = [].
Proof.
  apply completions_induction; [reflexivity | reflexivity |].
  intros p r rest H. rewrite !calls_of_app, H, app_nil_r.
  destruct (Node.captured p) as [s|]; [|reflexivity].
  destruct r as [err|this result]; cbn [optional_reaction reaction].
  - destruct (errorCallback s); cbn [optional_call];
      rewrite ?success_calls_of_call_events; reflexivity.
  - destruct (successCallback s); cbn [optional_call];
      rewrite ?success_calls_of_call_events; reflexivity.
Qed.

(** Whatever the engine does, the tick submits every statement and, for
    a read-write transaction, COMMIT; and when a success callback was
    given it is called in the tick, before anything has resolved. *)
Lemma tick_runs_to_the_end
      (DB : Type) (perform : DB -> DriverCall -> DB * Completion)
      (readOnly : bool) (callback : Callback)
      (errorCallback : option Callback) (f : Callback) (d : DB) :
  let tr := Node.trace (Node.run perform readOnly callback errorCallback (Some f) d) in
  dispatches tr = tick_dispatches readOnly (map request (fn_body callback))
  /\ calls_of TxSuccess tr = [(fn_name f, NoArg)]
  /\ existsb is_resolution (upto is_tx_callback tr) = false
  /\ filter is_resolution (since is_tx_callback tr) = filter is_resolution tr.
Proof.
  intros tr. subst tr. split; [apply run_dispatches|].
  rewrite run_trace. unfold node_trace.
  set (q := tick_queue readOnly (map request (fn_body callback))).
  set (ds := map Dispatched (tick_dispatches readOnly (map request (fn_body callback)))).
  assert (Hq : Forall queued_event (completions perform d q)) by apply completions_queued.
  assert (H1 : forall P, (forall s, P (Registered s) = false) ->
                 P TickScheduled = false -> P (Called Builder (fn_name callback) ArgTx) = false ->
                 P (Returned Builder (fn_name callback)) = false ->
                 existsb P ([TickScheduled] ++ call_events Builder callback ArgTx) = false).
  { intros P Hr Hs Hc Hb. cbn [app existsb].
    rewrite Hs, call_events_shape by exact Hr. now rewrite Hc, Hb. }
  assert (H2 : forall P, (forall c, P (Dispatched c) = false) -> P TickStarted = false ->
                 existsb P ([TickStarted] ++ ds) = false).
  { intros P Hd Ht. cbn [app existsb]. rewrite Ht. now apply map_Dispatched_quiet. }
  set (pre := ([TickScheduled] ++ call_events Builder callback ArgTx)
              ++ ([TickStarted] ++ ds)).
  assert (Hpre : existsb is_tx_callback pre = false).
  { subst pre. rewrite existsb_app, H1, H2; reflexivity. }
  assert (Hres : existsb is_resolution pre = false).
  { subst pre. rewrite existsb_app, H1, H2; reflexivity. }
  assert (F : forall l, existsb is_resolution l = false -> filter is_resolution l = []).
  { induction l as [|e l IH]; simpl; [reflexivity|].
    destruct (is_resolution e); simpl; [discriminate | exact IH]. }
  assert (Hshape : [TickScheduled] ++ call_events Builder callback ArgTx
                   ++ [TickStarted] ++ ds
                   ++ optional_call TxSuccess (Some f) NoArg
                   ++ completions perform d q
                   = pre ++ call_events TxSuccess f NoArg ++ completions perform d q).
  { subst pre. cbn [optional_call]. now rewrite <- !app_assoc. }
  split; [|split].
  - rewrite !calls_of_app, calls_of_completions, app_nil_r.
    cbn [optional_call]. rewrite !success_calls_of_call_events.
    subst ds. rewrite calls_of_map_Dispatched. reflexivity.
  - rewrite Hshape, upto_app_miss by exact Hpre.
    cbn [call_events app upto is_tx_callback]. now rewrite app_nil_r.
  - rewrite Hshape, since_app_miss by exact Hpre.
    cbn [call_events app since is_tx_callback].
    rewrite !filter_app, (F _ Hres).
    cbn [filter is_resolution app]. rewrite !filter_app.
    rewrite (F (registrations f)) by (now apply registrations_quiet).
    reflexivity.
Qed.

(** C1. Queued variant, a read-write transaction of one successful
    insert with both transaction-level callbacks given: the success
    callback is called in the tick, when nothing has resolved yet, and the
    three operations resolve after it.  Browser variant, same transaction:
    neither transaction-level callback is ever called. *)
Theorem completion_callback_fires_before_resolution :
  let node :=
    Node.trace (Node.transaction Sample.perform Sample.one_insert
                                 Sample.on_error Sample.on_success Sample.empty) in
  let browser :=
    Browser.trace (Browser.transaction Sample.exec Sample.changes_count
                     Sample.last_rowid Sample.one_insert
                     Sample.on_error Sample.on_success Sample.empty) in
  filter is_tx_callback node = [Called TxSuccess "onTransactionSuccess" NoArg]
  /\ filter is_resolution (upto is_tx_callback node) = []
  /\ resolved_calls (since is_tx_callback node)
     = [Run "BEGIN TRANSACTION;";
        All Sample.insert_user [VText "Alice"];
        Run "COMMIT;"]
  /\ ~ completed_last node
  /\ filter is_tx_callback browser = []
  /\ ~ completed_once browser.
Proof.
  intros node browser.
  assert (Hn : existsb is_resolution (since is_tx_callback node) = true)
    by reflexivity.
  assert (Hb : List.length (filter is_tx_callback browser) = 0) by reflexivity.
  repeat split; try reflexivity.
  - unfold completed_last. rewrite Hn. discriminate.
  - unfold completed_once. rewrite Hb. discriminate.
Qed.

(** C2. Queued variant, a read-write transaction whose first statement
    fails and whose second is an insert: the second statement is
    dispatched and performed all the same, the transaction-level error
    callback is never called, and the success callback is. *)
Theorem statements_after_a_failure_still_run :
  let w := Node.transaction Sample.perform Sample.failing_then_insert
                            Sample.on_error Sample.on_success Sample.empty in
  let tr := Node.trace w in
  dispatches tr
  = [Run "BEGIN TRANSACTION;";
     All "INSERT INTO nowhere VALUES (1);" [];
     All Sample.insert_user [VText "Bob"];
     Run "COMMIT;"]
  /\ filter is_failure tr
     = [Resolved (All "INSERT INTO nowhere VALUES (1);" []) (Failed "SQLITE_ERROR")]
  /\ calls_of StmtError tr = [("onStatementError", ArgError "SQLITE_ERROR")]
  /\ calls_of TxError tr = []
  /\ calls_of TxSuccess tr = [("onTransactionSuccess", NoArg)]
  /\ Sample.users (Node.db w) = [[("id", VInt 1); ("name", VText "Bob")]]
  /\ Node.errorOccurred w = true.
Proof.
  intros w tr. subst tr w. repeat split; reflexivity.
Qed.

(** C4. Queued variant, a read-write transaction whose first statement
    fails: COMMIT is dispatched, and it is performed after the failure. *)
Theorem commit_dispatched_despite_failure :
  let tr := Node.trace (Node.transaction Sample.perform Sample.failing_then_insert
                                         Sample.on_error None Sample.empty) in
  existsb is_failure tr = true
  /\ control_dispatches tr = [Run "BEGIN TRANSACTION;"; Run "COMMIT;"]
  /\ resolved_calls (since is_failure tr)
     = [All Sample.insert_user [VText "Bob"]; Run "COMMIT;"].
Proof.
  intros tr. subst tr. repeat split; reflexivity.
Qed.

(** C7. Queued variant, a read-write transaction of an insert and a
    select, both successful: the statements reach the driver in
    registration order, but the transaction success callback has already
    been called when the first of them resolves, and the last one resolves
    after it. *)
Theorem success_callback_precedes_last_statement :
  let tr := Node.trace (Node.transaction Sample.perform Sample.insert_then_select
                                         Sample.on_error Sample.on_success
                                         Sample.empty) in
  error_free tr
  /\ statement_dispatches tr
     = map all_of (map request (fn_body Sample.insert_then_select))
  /\ calls_of TxSuccess (upto is_resolution tr) = [("onTransactionSuccess", NoArg)]
  /\ In (Resolved (All Sample.select_users [])
                  (Done (mkCtx None None) [[("id", VInt 1); ("name", VText "Alice")]]))
        (since is_tx_callback tr)
  /\ ~ completed_last tr.
Proof.
  intros tr.
  assert (Hn : existsb is_resolution (since is_tx_callback tr) = true)
    by reflexivity.
  repeat split; try reflexivity.
  - subst tr. cbv. tauto.
  - unfold completed_last. rewrite Hn. discriminate.
Qed.

(** * Further properties of the two variants *)

(** ** What they are stated with *)

(** A statement, as opposed to BEGIN or COMMIT, failed. *)
Definition is_statement_failure (e : Event) : bool :=
  match e with
  | Resolved (All _ _) (Failed _) => true
  | _ => false
  end.

Definition is_returned (e : Event) : bool :=
  match e with ExecReturned _ _ => true | _ => false end.

(** The database after a list of operations performed one after the
    other, each on the database the previous one left. *)
Definition perform_all {DB : Type} (perform : DB -> DriverCall -> DB * Completion)
           (l : list DriverCall) (d : DB) : DB :=
  fold_left (fun d c => fst (perform d c)) l d.

Definition exec_all {DB : Type}
           (exec : DB -> string -> list Value -> DB * (list Row + Error))
           (l : list DriverCall) (d : DB) : DB :=
  fold_left (fun d c => match c with
                        | Exec s bind => fst (exec d s bind)
                        | _ => d
                        end) l d.

(** The [db.exec] call a browser [executeSql] makes. *)
Definition exec_of (c : SqlCall) : DriverCall :=
  match c with
  | ExecuteSql s p _ _ => Exec s (default_params p)
  end.

(** [l] occurs in [m], in order, possibly with other elements between. *)
Inductive Subsequence {A : Type} : list A -> list A -> Prop :=
| subsequence_nil m : Subsequence [] m
| subsequence_take x l m : Subsequence l m -> Subsequence (x :: l) (x :: m)
| subsequence_skip x l m : Subsequence l m -> Subsequence l (x :: m).

(** A queue entry carries callbacks exactly when it is a [db.all]. *)
Definition of_tick (p : Node.Pending) : Prop :=
  match Node.op p, Node.captured p with
  | All _ _, Some _ => True
  | Run _, None => True
  | _, _ => False
  end.

(** ** The queued variant *)

Lemma filter_nil {A : Type} (P : A -> bool) (l : list A) :
  existsb P l = false -> filter P l = [].
Proof.
  induction l as [|x l IH]; simpl; [reflexivity|].
  destruct (P x); simpl; [discriminate | exact IH].
Qed.

Lemma tick_queue_ops (readOnly : bool) (l : list StatementRequest) :
  map Node.op (tick_queue readOnly l) = tick_dispatches readOnly l.
Proof.
  unfold tick_queue, tick_dispatches, control. rewrite !map_app, !map_map.
  destruct readOnly; reflexivity.
Qed.

Lemma tick_queue_of_tick (readOnly : bool) (l : list StatementRequest) :
  Forall of_tick (tick_queue readOnly l).
Proof.
  unfold tick_queue, control. repeat (apply Forall_app; split).
  - destruct readOnly; repeat constructor.
  - induction l as [|s l IH]; simpl; constructor; [exact I | exact IH].
  - destruct readOnly; repeat constructor.
Qed.

Section NodeFurther.
Variable DB : Type.
Variable perform : DB -> DriverCall -> DB * Completion.

(** Entries with callbacks never end the program: the queue is worked
    through to its end, each operation on the database the previous one
    left. *)
Lemma work_listened (q q' : list Node.Pending) (w : Node.World DB) :
  Forall (fun p => Node.captured p <> None) q ->
  exists w',
    Node.work perform (q ++ q') w = Node.work perform q' w'
    /\ Node.db w' = perform_all perform (map Node.op q) (Node.db w).
Proof.
  intros Hq. revert w. induction Hq as [|p q Hp Hq IH]; intros w.
  - exists w. split; reflexivity.
  - cbn [app Node.work map].
    assert (Hu : Node.unhandled p (snd (perform (Node.db w) (Node.op p))) = None).
    { unfold Node.unhandled. destruct (Node.captured p); [reflexivity | now elim Hp]. }
    rewrite Hu. destruct (IH (Node.complete perform w p)) as (w' & Hw & Hd).
    exists w'. split; [exact Hw|]. rewrite Hd.
    unfold perform_all. cbn [fold_left].
    pose proof (complete_spec perform w p) as Hc.
    destruct (perform (Node.db w) (Node.op p)) as [d' r]. now rewrite Hc.
Qed.

Lemma complete_db (p : Node.Pending) (w : Node.World DB) :
  Node.db (Node.complete perform w p) = fst (perform (Node.db w) (Node.op p)).
Proof.
  pose proof (complete_spec perform w p) as Hc.
  destruct (perform (Node.db w) (Node.op p)) as [d' r]. now rewrite Hc.
Qed.

Lemma work_silent_head (c : DriverCall) (q : list Node.Pending)
      (w : Node.World DB) :
  Node.db (Node.work perform (pending_of c :: q) w)
  = match snd (perform (Node.db w) c) with
    | Failed _ => fst (perform (Node.db w) c)
    | Done _ _ =>
        Node.db (Node.work perform q (Node.complete perform w (pending_of c)))
    end.
Proof.
  cbn [Node.work pending_of Node.op]. unfold Node.unhandled. cbn [Node.captured].
  destruct (snd (perform (Node.db w) c)); [|reflexivity].
  cbn [Node.log Node.db]. apply (complete_db (pending_of c)).
Qed.

Lemma work_one (p : Node.Pending) (w : Node.World DB) :
  Node.db (Node.work perform [p] w) = fst (perform (Node.db w) (Node.op p)).
Proof.
  cbn [Node.work]. pose proof (complete_spec perform w p) as Hc.
  destruct (perform (Node.db w) (Node.op p)) as [d' r]. cbn [snd fst].
  destruct (Node.unhandled p r); rewrite Hc; reflexivity.
Qed.

Lemma completions_flag (q : list Node.Pending) (w : Node.World DB) :
  Forall of_tick q ->
  Node.errorOccurred (Node.work perform q w)
  = Node.errorOccurred w
    || existsb is_statement_failure (completions perform (Node.db w) q).
Proof.
  intros Hq. revert w. induction Hq as [|p q Hp Hq IH]; intros w.
  - simpl. now rewrite orb_false_r.
  - cbn [Node.work completions].
    pose proof (complete_spec perform w p) as Hc.
    destruct (perform (Node.db w) (Node.op p)) as [d' r]. cbn [snd existsb].
    rewrite existsb_app.
    assert (Hs : existsb is_statement_failure (optional_reaction (Node.captured p) r)
                 = false).
    { destruct (Node.captured p) as [s|]; [|reflexivity].
      destruct r as [err|this result]; cbn [optional_reaction reaction].
      - destruct (errorCallback s); cbn [optional_call];
          [now rewrite call_events_shape | reflexivity].
      - destruct (successCallback s); cbn [optional_call];
          [now rewrite call_events_shape | reflexivity]. }
    rewrite Hs. unfold of_tick, Node.unhandled in *.
    destruct (Node.op p), (Node.captured p), r; try contradiction;
      rewrite ?IH, Hc; simpl; now destruct (Node.errorOccurred w).
Qed.

(** The part of a transaction's trace that precedes the first completion. *)
Lemma node_trace_split (readOnly : bool) (callback : Callback)
      (successCallback : option Callback) (d : DB) :
  exists pre,
    node_trace perform readOnly callback successCallback d
    = pre ++ completions perform d
               (tick_queue readOnly (map request (fn_body callback)))
    /\ existsb is_resolution pre = false
    /\ existsb is_statement_failure pre = false
    /\ dispatches pre = tick_dispatches readOnly (map request (fn_body callback))
    /\ filter is_tx_callback pre
       = match successCallback with
         | Some f => [Called TxSuccess (fn_name f) NoArg]
         | None => []
         end
    /\ calls_of StmtSuccess pre = [] /\ calls_of StmtError pre = []
    /\ error_deliveries pre = [].
Proof.
  exists ([TickScheduled] ++ call_events Builder callback ArgTx ++ [TickStarted]
          ++ map Dispatched (tick_dispatches readOnly (map request (fn_body callback)))
          ++ optional_call TxSuccess successCallback NoArg).
  assert (Hopt : forall P, (forall s, P (Registered s) = false) ->
                   (forall f a, P (Called TxSuccess f a) = false) ->
                   (forall f, P (Returned TxSuccess f) = false) ->
                   existsb P (optional_call TxSuccess successCallback NoArg) = false).
  { intros P H1 H2 H3. destruct successCallback as [f|]; [|reflexivity].
    cbn [optional_call]. rewrite call_events_shape by exact H1. now rewrite H2, H3. }
  split; [|split; [|split; [|split; [|split; [|split; [|split]]]]]].
  - unfold node_trace. now rewrite <- !app_assoc.
  - rewrite !existsb_app, call_events_shape, map_Dispatched_quiet, Hopt; reflexivity.
  - rewrite !existsb_app, call_events_shape, map_Dispatched_quiet, Hopt; reflexivity.
  - rewrite !dispatches_app, dispatches_map_Dispatched.
    rewrite (call_events_quiet Builder callback ArgTx).
    destruct successCallback as [f|]; cbn [optional_call];
      rewrite ?(call_events_quiet TxSuccess); simpl; now rewrite app_nil_r.
  - rewrite !filter_app.
    rewrite (filter_nil is_tx_callback (call_events Builder callback ArgTx))
      by (now rewrite call_events_shape).
    rewrite (filter_nil is_tx_callback (map Dispatched _))
      by (now apply map_Dispatched_quiet).
    simpl. destruct successCallback as [f|]; [|reflexivity].
    cbn [optional_call call_events filter is_tx_callback]. f_equal.
    apply filter_nil. rewrite existsb_app. simpl.
    now rewrite registrations_quiet.
  - rewrite !calls_of_app, calls_of_map_Dispatched.
    assert (Hc : forall slot f a, slot <> StmtSuccess ->
                   calls_of StmtSuccess (call_events slot f a) = []).
    { intros slot f a Hs. unfold call_events, registrations.
      change (Called slot (fn_name f) a :: ?l) with ([Called slot (fn_name f) a] ++ l).
      rewrite !calls_of_app.
      replace (calls_of StmtSuccess (map _ (fn_body f))) with (@nil (string * Arg)).
      - destruct slot; try reflexivity. now elim Hs.
      - induction (fn_body f) as [|c l IH]; simpl; auto. }
    rewrite Hc by discriminate.
    destruct successCallback as [f|]; cbn [optional_call];
      rewrite ?Hc by discriminate; reflexivity.
  - rewrite !calls_of_app, calls_of_map_Dispatched.
    assert (Hc : forall slot f a, slot <> StmtError ->
                   calls_of StmtError (call_events slot f a) = []).
    { intros slot f a Hs. unfold call_events, registrations.
      change (Called slot (fn_name f) a :: ?l) with ([Called slot (fn_name f) a] ++ l).
      rewrite !calls_of_app.
      replace (calls_of StmtError (map _ (fn_body f))) with (@nil (string * Arg)).
      - destruct slot; try reflexivity. now elim Hs.
      - induction (fn_body f) as [|c l IH]; simpl; auto. }
    rewrite Hc by discriminate.
    destruct successCallback as [f|]; cbn [optional_call];
      rewrite ?Hc by discriminate; reflexivity.
  - unfold error_deliveries. rewrite !flat_map_app.
    assert (Hc : forall slot f,
                   flat_map (fun e => match e with
                                      | Called slot _ (ArgError err) => [(slot, err)]
                                      | _ => []
                                      end) (registrations f ++ [Returned slot (fn_name f)])
                   = []).
    { intros slot f. rewrite flat_map_app. simpl. rewrite app_nil_r.
      unfold registrations. induction (fn_body f) as [|c l IH]; simpl; auto. }
    cbn [call_events flat_map app]. rewrite Hc.
    replace (flat_map _ (map Dispatched _)) with (@nil (Slot * Error)).
    2:{ induction (tick_dispatches _ _) as [|c l IH]; simpl; auto. }
    destruct successCallback as [f|]; cbn [optional_call call_events flat_map app];
      rewrite ?Hc; reflexivity.
Qed.
End NodeFurther.

Lemma calls_of_call_events (k slot : Slot) (f : Callback) (a : Arg) :
  calls_of k (call_events slot f a) = calls_of k [Called slot (fn_name f) a].
Proof.
  unfold call_events, registrations.
  change (Called slot (fn_name f) a :: ?l) with ([Called slot (fn_name f) a] ++ l).
  rewrite !calls_of_app.
  replace (calls_of k (map _ (fn_body f))) with (@nil (string * Arg)).
  - destruct k; simpl; now rewrite app_nil_r.
  - induction (fn_body f) as [|c l IH]; simpl; auto.
Qed.

Section NodeCounts.
Variable DB : Type.
Variable perform : DB -> DriverCall -> DB * Completion.

Lemma completions_no_transaction_call (q : list Node.Pending) (d : DB) :
  existsb is_tx_callback (completions perform d q) = false.
Proof.
  apply completions_induction; [reflexivity | reflexivity |].
  intros p r rest H. rewrite !existsb_app, H, orb_false_r. cbn [existsb orb].
  destruct (Node.captured p) as [s|]; [|reflexivity].
  destruct r as [err|this result]; cbn [optional_reaction reaction].
  - destruct (errorCallback s); cbn [optional_call];
      [now rewrite call_events_shape | reflexivity].
  - destruct (successCallback s); cbn [optional_call];
      [now rewrite call_events_shape | reflexivity].
Qed.

(** One queue entry leads to at most one statement-level call, and to a
    call of an error callback only when a statement failed. *)
Lemma completions_calls (q : list Node.Pending) (d : DB) :
  Forall of_tick q ->
  List.length (calls_of StmtSuccess (completions perform d q))
  + List.length (calls_of StmtError (completions perform d q))
  <= List.length (filter (fun c => negb (is_run c)) (map Node.op q))
  /\ List.length (calls_of StmtError (completions perform d q))
     <= List.length (filter is_statement_failure (completions perform d q)).
Proof.
  intros Hq. revert d. induction Hq as [|p q Hp Hq IH]; intros d; simpl.
  - split; lia.
  - destruct (perform d (Node.op p)) as [d' r].
    set (rest := match Node.unhandled p r with
                 | Some err => [Uncaught err]
                 | None => completions perform d' q
                 end).
    assert (Hrest :
      List.length (calls_of StmtSuccess rest) + List.length (calls_of StmtError rest)
      <= List.length (filter (fun c => negb (is_run c)) (map Node.op q))
      /\ List.length (calls_of StmtError rest)
         <= List.length (filter is_statement_failure rest)).
    { subst rest. destruct (Node.unhandled p r); [simpl; split; lia | apply IH]. }
    clearbody rest. clear IH.
    change (Resolved (Node.op p) r :: ?l) with ([Resolved (Node.op p) r] ++ l).
    rewrite !calls_of_app, !filter_app, !length_app.
    destruct Hrest as [IH1 IH2].
    rewrite (filter_nil is_statement_failure (optional_reaction (Node.captured p) r)).
    2:{ destruct (Node.captured p) as [s|]; [|reflexivity].
        destruct r as [err|this result]; cbn [optional_reaction reaction].
        - destruct (errorCallback s); cbn [optional_call];
            [now rewrite call_events_shape | reflexivity].
        - destruct (successCallback s); cbn [optional_call];
            [now rewrite call_events_shape | reflexivity]. }
    unfold of_tick in Hp.
    destruct (Node.op p) as [s0|s0 p0|s0 p0], (Node.captured p) as [s|];
      try contradiction.
    + simpl. split; lia.
    + destruct r as [err|this result]; cbn [optional_reaction reaction].
      * destruct (errorCallback s) as [f|]; cbn [optional_call];
          rewrite ?calls_of_call_events; simpl; split; lia.
      * destruct (successCallback s) as [f|]; cbn [optional_call];
          rewrite ?calls_of_call_events; simpl; split; lia.
Qed.
End NodeCounts.

(** X1. Queued variant, every engine and transaction: the only
    transaction-level call ever made is one call of the success callback,
    with no argument, when one was given; when none was given no
    transaction-level call is made at all. *)
Theorem node_transaction_level_calls
        (DB : Type) (perform : DB -> DriverCall -> DB * Completion)
        (readOnly : bool) (callback : Callback)
        (errorCallback successCallback : option Callback) (d : DB) :
  filter is_tx_callback
         (Node.trace (Node.run perform readOnly callback errorCallback
                               successCallback d))
  = match successCallback with
    | Some f => [Called TxSuccess (fn_name f) NoArg]
    | None => []
    end.
Proof.
  rewrite run_trace.
  destruct (node_trace_split perform readOnly callback successCallback d)
    as (pre & Ht & _ & _ & _ & Hf & _).
  rewrite Ht, filter_app, Hf.
  rewrite (filter_nil is_tx_callback _ (completions_no_transaction_call perform _ d)).
  apply app_nil_r.
Qed.

(** X2. Queued variant: everything a transaction hands to the driver is
    handed over before the first operation is answered; once the first
    answer has arrived nothing more is ever submitted, whatever the
    callbacks do. *)
Theorem node_submission_precedes_answers
        (DB : Type) (perform : DB -> DriverCall -> DB * Completion)
        (readOnly : bool) (callback : Callback)
        (errorCallback successCallback : option Callback) (d : DB) :
  let tr := Node.trace (Node.run perform readOnly callback errorCallback
                                 successCallback d) in
  dispatches (upto is_resolution tr) = dispatches tr
  /\ dispatches (since is_resolution tr) = [].
Proof.
  intros tr. subst tr. rewrite run_trace.
  destruct (node_trace_split perform readOnly callback successCallback d)
    as (pre & Ht & Hr & _ & Hd & _).
  rewrite Ht. split.
  - rewrite upto_app_miss by exact Hr. rewrite !dispatches_app. f_equal.
    rewrite completions_quiet.
    destruct (completions perform d _) as [|e l] eqn:E; [reflexivity|].
    assert (He : is_resolution e = true).
    { destruct (tick_queue readOnly (map request (fn_body callback))) as [|p q];
        simpl in E; [discriminate|].
      destruct (perform d (Node.op p)). now inversion E. }
    simpl. now rewrite He.
  - rewrite since_app_miss by exact Hr.
    apply since_quiet, completions_quiet.
Qed.

(** X3. Queued variant: a failing statement stops nothing, a failing
    BEGIN stops everything.  The database a read-only transaction leaves
    is the one obtained by performing every registered statement, in
    registration order.  For a read-write transaction it is the database
    BEGIN left, when BEGIN failed (the failure, reported to no callback,
    ends the program); otherwise it is the one obtained by performing
    BEGIN, every registered statement in order, and COMMIT. *)
Theorem node_database_after_transaction
        (DB : Type) (perform : DB -> DriverCall -> DB * Completion)
        (readOnly : bool) (callback : Callback)
        (errorCallback successCallback : option Callback) (d : DB) :
  Node.db (Node.run perform readOnly callback errorCallback successCallback d)
  = if readOnly
    then perform_all perform (map all_of (map request (fn_body callback))) d
    else match snd (perform d (Run "BEGIN TRANSACTION;")) with
         | Failed _ => fst (perform d (Run "BEGIN TRANSACTION;"))
         | Done _ _ =>
             perform_all perform
               (tick_dispatches false (map request (fn_body callback))) d
         end.
Proof.
  unfold Node.run, Node.drain, Node.after_tick.
  rewrite begun_spec, tick_spec. cbn [Node.db Node.queue Node.statements app].
  set (l := map request (fn_body callback)).
  assert (Hl : Forall (fun p => Node.captured p <> None)
                      (map (fun s => Node.mkPending (all_of s) (Some s)) l)).
  { induction l as [|s l IH]; simpl; constructor; [discriminate | exact IH]. }
  assert (Hops : map Node.op (map (fun s => Node.mkPending (all_of s) (Some s)) l)
                 = map all_of l).
  { rewrite map_map. reflexivity. }
  unfold tick_queue, control. destruct readOnly.
  - cbn [map app].
    match goal with
    | |- Node.db (Node.work _ (_ ++ []) ?w) = _ =>
        destruct (work_listened perform [] w Hl) as (w' & Hw & Hd)
    end.
    rewrite Hw. cbn [Node.work]. rewrite Hd, Hops. reflexivity.
  - cbn [map app]. rewrite work_silent_head. cbn [Node.db].
    destruct (snd (perform d (Run "BEGIN TRANSACTION;"))) as [err|this result];
      [reflexivity|].
    match goal with
    | |- Node.db (Node.work _ (_ ++ ?q') ?w) = _ =>
        destruct (work_listened perform q' w Hl) as (w' & Hw & Hd)
    end.
    rewrite Hw, work_one, Hd, Hops, complete_db. cbn [Node.db Node.op pending_of].
    unfold tick_dispatches, control, perform_all.
    cbn [app fold_left]. rewrite fold_left_app. reflexivity.
Qed.

(** X4. Queued variant: when the queue has been worked through,
    [errorOccurred] is true exactly when a registered statement failed; a
    failing BEGIN or COMMIT leaves it false. *)
Theorem node_errorOccurred_iff_statement_failed
        (DB : Type) (perform : DB -> DriverCall -> DB * Completion)
        (readOnly : bool) (callback : Callback)
        (errorCallback successCallback : option Callback) (d : DB) :
  let w := Node.run perform readOnly callback errorCallback successCallback d in
  Node.errorOccurred w = existsb is_statement_failure (Node.trace w).
Proof.
  intros w. subst w. rewrite run_trace.
  destruct (node_trace_split perform readOnly callback successCallback d)
    as (pre & Ht & _ & Hs & _).
  rewrite Ht, existsb_app, Hs.
  unfold Node.run, Node.drain, Node.after_tick.
  rewrite begun_spec, tick_spec. cbn [Node.db Node.queue app Node.errorOccurred].
  rewrite completions_flag by apply tick_queue_of_tick. reflexivity.
Qed.

(** X5. Queued variant: the statement-level callbacks are called at most
    once per registered statement, both kinds counted together, and an
    error callback is called at most once per failed statement. *)
Theorem node_statement_callbacks_bounded
        (DB : Type) (perform : DB -> DriverCall -> DB * Completion)
        (readOnly : bool) (callback : Callback)
        (errorCallback successCallback : option Callback) (d : DB) :
  let tr := Node.trace (Node.run perform readOnly callback errorCallback
                                 successCallback d) in
  List.length (calls_of StmtSuccess tr) + List.length (calls_of StmtError tr)
  <= List.length (fn_body callback)
  /\ List.length (calls_of StmtError tr)
     <= List.length (filter is_statement_failure tr).
Proof.
  intros tr. subst tr. rewrite run_trace.
  destruct (node_trace_split perform readOnly callback successCallback d)
    as (pre & Ht & _ & Hs & _ & _ & Hok & Hko & _).
  rewrite Ht, !calls_of_app, filter_app, Hok, Hko, (filter_nil _ _ Hs).
  cbn [app].
  destruct (completions_calls perform d
              (tick_queue_of_tick readOnly (map request (fn_body callback))))
    as [H1 H2].
  rewrite tick_queue_ops, filter_statement_dispatches, !length_map in H1.
  split; [exact H1 | exact H2].
Qed.

(** ** The browser variant *)

Lemma subsequence_behind {A : Type} (p l m : list A) :
  Subsequence l m -> Subsequence l (p ++ m).
Proof.
  intros H. induction p as [|x p IH]; simpl; [exact H | now constructor].
Qed.

Section BrowserFurther.
Variable DB : Type.
Variable exec : DB -> string -> list Value -> DB * (list Row + Error).
Variable db_changes : DB -> Z + Error.
Variable db_lastInsertRowid : DB -> Z + Error.

Let World := Browser.World DB.
Let executeSql := Browser.executeSql exec db_changes db_lastInsertRowid.
Let call := Browser.call exec db_changes db_lastInsertRowid.

(** The database an event leaves: only a [db.exec] moves it. *)
Definition moved (d : DB) (e : Event) : DB :=
  match e with
  | Dispatched (Exec s bind) => fst (exec d s bind)
  | _ => d
  end.

(** What an event says of the connection's counters on the database [d]
    it happens on.  A result set handed to a success callback carries
    what [db.changes()] and [db.lastInsertRowid()] return on [d]; an
    exception raised while the result set is built is the one the first
    of the two calls to throw on [d] throws. *)
Definition counters_read (d : DB) (e : Event) : Prop :=
  match e with
  | Called StmtSuccess _ (ArgResult rs) =>
      db_changes d = inl (rowsAffected rs)
      /\ exists k, db_lastInsertRowid d = inl k /\ insertId rs = Some k
  | Raised err =>
      db_changes d = inr err
      \/ ((exists n, db_changes d = inl n) /\ db_lastInsertRowid d = inr err)
  | _ => True
  end.

(** A trace read from the database [d] on: every event agrees with the
    counters of the database left by the [db.exec] calls before it. *)
Fixpoint replayed (d : DB) (tr : Trace) : Prop :=
  match tr with
  | [] => True
  | e :: tr' => counters_read d e /\ replayed (moved d e) tr'
  end.

Lemma moved_all (a : Trace) (d : DB) :
  fold_left moved a d = exec_all exec (dispatches a) d.
Proof.
  revert d. induction a as [|e a IH]; intros d; [reflexivity|].
  cbn [fold_left]. rewrite IH.
  destruct e; reflexivity.
Qed.

Lemma replayed_app (a b : Trace) (d : DB) :
  replayed d a -> replayed (exec_all exec (dispatches a) d) b ->
  replayed d (a ++ b).
Proof.
  rewrite <- moved_all. revert d.
  induction a as [|e a IH]; intros d Ha Hb; [exact Hb|].
  destruct Ha as [He Ha]. split; [exact He | now apply IH].
Qed.

(** A delivered result set carries the rows of some return of [evs]. *)
Definition reported (evs : Trace) (rs : ResultSet) : Prop :=
  exists c result,
    In (ExecReturned c result) evs
    /\ Rows._array (rows rs) = result
    /\ Rows.length (rows rs) = List.length result.

Lemma reported_incl (a b : Trace) (rs : ResultSet) :
  (forall e, In e a -> In e b) -> reported a rs -> reported b rs.
Proof.
  intros Hab (c & result & Hin & H). exists c, result.
  split; [now apply Hab | exact H].
Qed.

(** What a stretch of events says about the database and the callbacks:
    the database moved by the dispatched operations, in order; no more
    success calls than returns; no more error calls than [extra] plus
    the dispatches; every delivered result set carries the rows of some
    return; the counters are those of the database at the time. *)
Definition steady_within (extra : nat) (d d' : DB) (evs : Trace) : Prop :=
  d' = exec_all exec (dispatches evs) d
  /\ List.length (calls_of StmtSuccess evs) <= List.length (filter is_returned evs)
  /\ List.length (calls_of StmtError evs) <= extra + List.length (dispatches evs)
  /\ Forall (reported evs) (delivered evs)
  /\ replayed d evs.

Definition steady : DB -> DB -> Trace -> Prop := steady_within 0.

Lemma steady_nil (extra : nat) (d : DB) : steady_within extra d d [].
Proof. repeat split; simpl; auto; lia. Qed.

Lemma steady_app (d d' d'' : DB) (a b : Trace) :
  steady d d' a -> steady d' d'' b -> steady d d'' (a ++ b).
Proof.
  intros (Ha1 & Ha2 & Ha3 & Ha4 & Ha5) (Hb1 & Hb2 & Hb3 & Hb4 & Hb5).
  unfold steady, steady_within.
  rewrite dispatches_app, !calls_of_app, !filter_app, !length_app.
  split; [|split; [lia|split; [lia|split]]].
  - subst d' d''. unfold exec_all. now rewrite fold_left_app.
  - unfold delivered in *. rewrite flat_map_app. apply Forall_app. split.
    + eapply Forall_impl; [|exact Ha4].
      intros rs. apply reported_incl. intros e He. apply in_or_app. now left.
    + eapply Forall_impl; [|exact Hb4].
      intros rs. apply reported_incl. intros e He. apply in_or_app. now right.
  - apply replayed_app; [exact Ha5 | now rewrite <- Ha1].
Qed.

Lemma db_exec_spec (s : string) (bind : list Value) (w : World) :
  Browser.db_exec exec s bind w
  = (Browser.mkWorld
       (fst (exec (Browser.db w) s bind))
       (Browser.trace w
        ++ [Dispatched (Exec s bind);
            match snd (exec (Browser.db w) s bind) with
            | inl result => ExecReturned (Exec s bind) result
            | inr err => ExecThrew (Exec s bind) err
            end]),
     snd (exec (Browser.db w) s bind)).
Proof.
  unfold Browser.db_exec. simpl.
  destruct (exec (Browser.db w) s bind) as [d [result|err]];
    unfold Browser.log; simpl; now rewrite <- app_assoc.
Qed.

Lemma dispatches_between (slot : Slot) (name : string) (a : Arg) (evs : Trace) :
  dispatches (Called slot name a :: evs ++ [Returned slot name]) = dispatches evs.
Proof.
  change (Called slot name a :: evs ++ [Returned slot name])
    with ([Called slot name a] ++ evs ++ [Returned slot name]).
  rewrite !dispatches_app. simpl. now rewrite app_nil_r.
Qed.

Lemma calls_of_between (k slot : Slot) (name : string) (a : Arg) (evs : Trace) :
  calls_of k (Called slot name a :: evs ++ [Returned slot name])
  = calls_of k [Called slot name a] ++ calls_of k evs.
Proof.
  change (Called slot name a :: evs ++ [Returned slot name])
    with ([Called slot name a] ++ evs ++ [Returned slot name]).
  rewrite !calls_of_app. f_equal. destruct k; simpl; now rewrite app_nil_r.
Qed.

Lemma filter_between (P : Event -> bool) (slot : Slot) (name : string) (a : Arg)
      (evs : Trace) :
  P (Called slot name a) = false -> P (Returned slot name) = false ->
  filter P (Called slot name a :: evs ++ [Returned slot name]) = filter P evs.
Proof.
  intros Hc Hr. simpl. rewrite Hc, filter_app. simpl. rewrite Hr. apply app_nil_r.
Qed.

Lemma replayed_between (d : DB) (slot : Slot) (name : string) (a : Arg)
      (evs : Trace) :
  counters_read d (Called slot name a) -> replayed d evs ->
  replayed d (Called slot name a :: evs ++ [Returned slot name]).
Proof.
  intros Hc He. split; [exact Hc|]. cbn [moved].
  apply replayed_app; [exact He | now split].
Qed.

(** A statement that returned, with the success callback it triggered. *)
Lemma steady_returned (d d' : DB) (s : string) (bind : list Value)
      (result : list Row) (n k : Z) (name : string) (inner : Trace) :
  db_changes (fst (exec d s bind)) = inl n ->
  db_lastInsertRowid (fst (exec d s bind)) = inl k ->
  steady (fst (exec d s bind)) d' inner ->
  steady d d'
    ([Dispatched (Exec s bind); ExecReturned (Exec s bind) result]
     ++ Called StmtSuccess name
          (ArgResult (mkResultSet n (Some k) (row_list result)))
        :: inner ++ [Returned StmtSuccess name]).
Proof.
  intros Hn Hk (B1 & B2 & B3 & B4 & B5). unfold steady, steady_within.
  rewrite dispatches_app, !calls_of_app, !filter_app, !length_app.
  rewrite dispatches_between, !calls_of_between, !filter_between by reflexivity.
  rewrite !length_app. cbn [dispatches calls_of flat_map filter is_returned
                            app List.length].
  split; [exact B1|]. split; [lia|]. split; [lia|]. split.
  - unfold delivered in *. cbn [flat_map app]. rewrite flat_map_app.
    cbn [flat_map app]. rewrite app_nil_r. constructor.
    + exists (Exec s bind), result. split; [right; now left | now split].
    + eapply Forall_impl; [|exact B4].
      intros rs. apply reported_incl. intros e He.
      right. right. right. apply in_or_app. now left.
  - cbn [app]. split; [exact I|]. cbn [moved]. split; [exact I|]. cbn [moved].
    apply replayed_between; [|exact B5].
    split; [exact Hn | exists k; now split].
Qed.

(** A statement whose [try] block did not reach a success callback: what
    [db.exec] and the construction of the result set left in the trace,
    [ans], calls nothing; the [catch] block, [tail], calls the error
    callback at most once. *)
Lemma steady_caught (d d' : DB) (s : string) (bind : list Value)
      (ans tail : Trace) :
  dispatches ans = [] -> calls_of StmtSuccess ans = [] ->
  calls_of StmtError ans = [] -> delivered ans = [] ->
  replayed (fst (exec d s bind)) ans ->
  steady_within 1 (fst (exec d s bind)) d' tail ->
  steady d d' (Dispatched (Exec s bind) :: ans ++ tail).
Proof.
  intros Hd Hs He Hr Hp (B1 & B2 & B3 & B4 & B5). unfold steady, steady_within.
  change (Dispatched (Exec s bind) :: ans ++ tail)
    with ([Dispatched (Exec s bind)] ++ ans ++ tail).
  rewrite !dispatches_app, !calls_of_app, !filter_app, !length_app, Hd, Hs, He.
  cbn [dispatches calls_of flat_map filter is_returned app List.length].
  split; [exact B1|]. split; [lia|]. split; [lia|]. split.
  - replace (delivered (Dispatched (Exec s bind) :: ans ++ tail))
      with (delivered tail).
    2:{ change (Dispatched (Exec s bind) :: ans ++ tail)
          with ([Dispatched (Exec s bind)] ++ ans ++ tail).
        unfold delivered in *. now rewrite !flat_map_app, Hr. }
    eapply Forall_impl; [|exact B4].
    intros rs. apply reported_incl. intros e H.
    right. apply in_or_app. now right.
  - split; [exact I|]. cbn [moved].
    apply replayed_app; [exact Hp | now rewrite Hd].
Qed.

(** An error callback called once, with what it triggers. *)
Lemma steady_error_call (d d' : DB) (err : Error) (name : string)
      (inner : Trace) :
  steady d d' inner ->
  steady_within 1 d d'
    (Called StmtError name (ArgError err) :: inner ++ [Returned StmtError name]).
Proof.
  intros (B1 & B2 & B3 & B4 & B5). unfold steady_within.
  rewrite dispatches_between, !calls_of_between, !filter_between by reflexivity.
  rewrite !length_app. cbn [calls_of flat_map app List.length].
  split; [exact B1|]. split; [lia|]. split; [lia|]. split.
  - unfold delivered in *. cbn [flat_map app]. rewrite flat_map_app.
    cbn [flat_map app]. rewrite app_nil_r.
    eapply Forall_impl; [|exact B4].
    intros rs. apply reported_incl. intros e H.
    right. apply in_or_app. now left.
  - apply replayed_between; [exact I | exact B5].
Qed.

Lemma result_set_inr (d : DB) (result : list Row) (err : Error) :
  Browser.result_set db_changes db_lastInsertRowid d result = inr err ->
  counters_read d (Raised err).
Proof.
  unfold Browser.result_set, counters_read.
  destruct (db_changes d) as [n|e].
  - destruct (db_lastInsertRowid d) as [k|e]; [discriminate|].
    intros H. inversion H. right. split; [now exists n | reflexivity].
  - intros H. inversion H. now left.
Qed.

Definition calls_steady (f : Callback) : Prop :=
  forall slot a (w : World), exists inner,
    Browser.trace (call slot f a w)
    = Browser.trace w ++ Called slot (fn_name f) a :: inner
      ++ [Returned slot (fn_name f)]
    /\ steady (Browser.db w) (Browser.db (call slot f a w)) inner
    /\ Subsequence (map exec_of (fn_body f)) (dispatches inner).

Definition runs_steady (c : SqlCall) : Prop :=
  forall w : World, exists evs,
    Browser.trace (executeSql c w) = Browser.trace w ++ evs
    /\ steady (Browser.db w) (Browser.db (executeSql c w)) evs
    /\ exists rest, dispatches evs = exec_of c :: rest.

Lemma each_steady (body : list SqlCall) :
  Forall runs_steady body ->
  forall w : World, exists inner,
    Browser.trace (fold_left (fun w c => executeSql c w) body w)
    = Browser.trace w ++ inner
    /\ steady (Browser.db w)
              (Browser.db (fold_left (fun w c => executeSql c w) body w)) inner
    /\ Subsequence (map exec_of body) (dispatches inner).
Proof.
  induction 1 as [|c l Hc Hl IH]; intros w; simpl.
  - exists []. rewrite app_nil_r.
    split; [reflexivity | split; [apply steady_nil | constructor]].
  - destruct (Hc w) as (e1 & H1 & S1 & rest & D1).
    destruct (IH (executeSql c w)) as (e2 & H2 & S2 & Q2).
    exists (e1 ++ e2). rewrite H2, H1, app_assoc. split; [reflexivity|]. split.
    + exact (steady_app S1 S2).
    + rewrite dispatches_app, D1. simpl. constructor.
      now apply subsequence_behind.
Qed.

(** The [catch] block calls the error callback at most once. *)
Lemma caught_steady (ko : option Callback) (err : Error) (w : World) :
  option_all calls_steady ko ->
  exists tail,
    Browser.trace (caught exec db_changes db_lastInsertRowid ko err w)
    = Browser.trace w ++ tail
    /\ steady_within 1 (Browser.db w)
         (Browser.db (caught exec db_changes db_lastInsertRowid ko err w)) tail.
Proof.
  intros Hko. destruct ko as [g|]; cbn [option_all caught] in *.
  - destruct (Hko StmtError (ArgError err) w) as (inner & Hc & Sc & _).
    fold call. rewrite Hc. eexists. split; [reflexivity|].
    apply steady_error_call. exact Sc.
  - exists []. rewrite app_nil_r. split; [reflexivity | apply steady_nil].
Qed.

Lemma steady_both : (forall f, calls_steady f) /\ (forall c, runs_steady c).
Proof.
  assert (HP : forall name body, Forall runs_steady body -> calls_steady (Fn name body)).
  { intros name body Hb slot a w.
    unfold call. rewrite (call_unfold exec db_changes db_lastInsertRowid).
    destruct (each_steady Hb (Browser.log (Called slot name a) w))
      as (inner & Ht & Hs & Hq).
    exists inner. cbn [Browser.log Browser.trace Browser.db fn_name fn_body] in *.
    fold executeSql. rewrite Ht.
    split; [now rewrite <- !app_assoc | split; [exact Hs | exact Hq]]. }
  assert (HQ : forall s p ok ko, option_all calls_steady ok ->
                 option_all calls_steady ko -> runs_steady (ExecuteSql s p ok ko)).
  { intros s p ok ko Hok Hko w.
    unfold executeSql. rewrite (executeSql_unfold exec db_changes db_lastInsertRowid).
    rewrite db_exec_spec.
    set (bind := default_params p).
    destruct (snd (exec (Browser.db w) s bind)) as [result|err] eqn:E.
    - destruct ok as [f|]; cbn [option_all] in Hok.
      + cbn [Browser.db].
        destruct (Browser.result_set db_changes db_lastInsertRowid
                    (fst (exec (Browser.db w) s bind)) result) as [rs|err] eqn:R.
        * destruct (result_set_inl _ _ _ _ R) as (n & k & Hn & Hk & ->).
          match goal with
          | |- context [Browser.call _ _ _ _ _ ?a ?w1] =>
              destruct (Hok StmtSuccess a w1) as (inner & Hc & Sc & _)
          end.
          fold call. rewrite Hc. cbn [Browser.trace Browser.db] in *.
          eexists. rewrite <- app_assoc. split; [reflexivity|]. split.
          -- now apply steady_returned.
          -- eexists. reflexivity.
        * match goal with
          | |- context [caught _ _ _ _ _ ?w1] =>
              destruct (@caught_steady ko err w1 Hko) as (tail & Hc & Sc)
          end.
          rewrite Hc. cbn [Browser.log Browser.trace Browser.db] in *.
          exists (Dispatched (Exec s bind)
                  :: [ExecReturned (Exec s bind) result; Raised err] ++ tail).
          split; [now rewrite <- !app_assoc|]. split.
          -- apply steady_caught; try reflexivity; [|exact Sc].
             split; [exact I|]. split; [|exact I].
             eapply result_set_inr. exact R.
          -- eexists. reflexivity.
      + exists (Dispatched (Exec s bind)
                :: [ExecReturned (Exec s bind) result] ++ []).
        cbn [Browser.trace Browser.db].
        split; [reflexivity|]. split; [|now eexists].
        apply steady_caught; try reflexivity; [now split | apply steady_nil].
    - match goal with
      | |- context [caught _ _ _ _ _ ?w1] =>
          destruct (@caught_steady ko err w1 Hko) as (tail & Hc & Sc)
      end.
      rewrite Hc. cbn [Browser.trace Browser.db] in *.
      exists (Dispatched (Exec s bind) :: [ExecThrew (Exec s bind) err] ++ tail).
      split; [now rewrite <- !app_assoc|]. split.
      + apply steady_caught; try reflexivity; [now split | exact Sc].
      + eexists. reflexivity. }
  split.
  - exact (@Callback_induction _ _ HP HQ).
  - exact (@SqlCall_induction _ _ HP HQ).
Qed.
End BrowserFurther.

Lemma browser_run_steady (DB : Type)
      (exec : DB -> string -> list Value -> DB * (list Row + Error))
      (db_changes db_lastInsertRowid : DB -> Z + Error)
      (readOnly : bool) (callback : Callback)
      (errorCallback successCallback : option Callback) (d : DB) :
  let w := Browser.run exec db_changes db_lastInsertRowid readOnly callback
                       errorCallback successCallback d in
  exists inner,
    Browser.trace w
    = Called Builder (fn_name callback) ArgTx :: inner
      ++ [Returned Builder (fn_name callback)]
    /\ steady exec db_changes db_lastInsertRowid d (Browser.db w) inner
    /\ Subsequence (map exec_of (fn_body callback)) (dispatches inner).
Proof.
  intros w. subst w. unfold Browser.run, Browser.Transaction.
  destruct (steady_both exec db_changes db_lastInsertRowid) as [Hcall _].
  destruct (Hcall callback Builder ArgTx (Browser.mkWorld d []))
    as (inner & Ht & Hs & Hq).
  exists inner. split; [exact Ht | split; [exact Hs | exact Hq]].
Qed.

(** X6. Browser variant, every engine and transaction: neither the
    success callback nor the error callback given to [transaction] or
    [readTransaction] is ever called. *)
Theorem browser_no_transaction_level_call
        (DB : Type)
        (exec : DB -> string -> list Value -> DB * (list Row + Error))
        (db_changes db_lastInsertRowid : DB -> Z + Error)
        (readOnly : bool) (callback : Callback)
        (errorCallback successCallback : option Callback) (d : DB) :
  filter is_tx_callback
         (Browser.trace (Browser.run exec db_changes db_lastInsertRowid readOnly
                                     callback errorCallback successCallback d))
  = [].
Proof.
  destruct (browser_run_shape exec db_changes db_lastInsertRowid readOnly callback
                              errorCallback successCallback d) as (evs & He & Fe).
  rewrite He. apply filter_nil. simpl. rewrite existsb_app. simpl.
  rewrite orb_false_r. eapply existsb_false; [|exact Fe].
  intros e H. now destruct H.
Qed.

(** X7. Browser variant: every statement the builder registers is handed
    to the driver, in registration order, whether or not an earlier one
    threw; what the callbacks register in turn is dispatched in between. *)
Theorem browser_builder_statements_dispatched
        (DB : Type)
        (exec : DB -> string -> list Value -> DB * (list Row + Error))
        (db_changes db_lastInsertRowid : DB -> Z + Error)
        (readOnly : bool) (callback : Callback)
        (errorCallback successCallback : option Callback) (d : DB) :
  Subsequence (map exec_of (fn_body callback))
              (dispatches
                 (Browser.trace (Browser.run exec db_changes db_lastInsertRowid
                                   readOnly callback errorCallback
                                   successCallback d))).
Proof.
  destruct (browser_run_steady exec db_changes db_lastInsertRowid readOnly callback
                               errorCallback successCallback d)
    as (inner & Ht & _ & Hq).
  rewrite Ht, dispatches_between. exact Hq.
Qed.

(** X9. Browser variant: a statement success callback is called at most
    once per [db.exec] that returned, and a statement error callback at
    most once per [db.exec] call, whether that call threw or an
    exception was raised later inside the same [try] block. *)
Theorem browser_statement_callbacks_bounded
        (DB : Type)
        (exec : DB -> string -> list Value -> DB * (list Row + Error))
        (db_changes db_lastInsertRowid : DB -> Z + Error)
        (readOnly : bool) (callback : Callback)
        (errorCallback successCallback : option Callback) (d : DB) :
  let tr := Browser.trace (Browser.run exec db_changes db_lastInsertRowid readOnly
                             callback errorCallback successCallback d) in
  List.length (calls_of StmtSuccess tr) <= List.length (filter is_returned tr)
  /\ List.length (calls_of StmtError tr) <= List.length (dispatches tr).
Proof.
  intros tr.
  destruct (browser_run_steady exec db_changes db_lastInsertRowid readOnly callback
                               errorCallback successCallback d)
    as (inner & Ht & (_ & Hok & Hko & _) & _).
  fold tr in Ht.
  rewrite Ht, dispatches_between, !calls_of_between, !filter_between by reflexivity.
  simpl. split; [exact Hok | exact Hko].
Qed.

(** ** Rows *)

Lemma js_index_None {A : Type} (l : list A) (i : Z) :
  js_index l i = None <-> (i < 0 \/ Z.of_nat (List.length l) <= i)%Z.
Proof.
  unfold js_index. destruct (i <? 0)%Z eqn:E.
  - apply Z.ltb_lt in E. split; [now left | reflexivity].
  - apply Z.ltb_ge in E. rewrite nth_error_None. lia.
Qed.

(** X10. Both variants: the rows of every result set handed to a
    statement success callback are exactly the rows the driver reported
    for one of the operations of the transaction, unchanged and in the
    driver's order, and [rows.length] is their number. *)
Theorem delivered_rows_are_reported_rows
        (DB1 DB2 : Type)
        (perform : DB1 -> DriverCall -> DB1 * Completion)
        (exec : DB2 -> string -> list Value -> DB2 * (list Row + Error))
        (db_changes db_lastInsertRowid : DB2 -> Z + Error)
        (readOnly : bool) (callback : Callback)
        (errorCallback successCallback : option Callback)
        (d1 : DB1) (d2 : DB2) :
  let node :=
    Node.trace (Node.run perform readOnly callback errorCallback successCallback d1) in
  let browser :=
    Browser.trace (Browser.run exec db_changes db_lastInsertRowid readOnly
                               callback errorCallback successCallback d2) in
  Forall (fun rs => exists c this result,
            In (Resolved c (Done this result)) node
            /\ Rows._array (rows rs) = result
            /\ Rows.length (rows rs) = List.length result)
         (delivered node)
  /\ Forall (fun rs => exists c result,
               In (ExecReturned c result) browser
               /\ Rows._array (rows rs) = result
               /\ Rows.length (rows rs) = List.length result)
            (delivered browser).
Proof.
  intros node browser. split.
  - apply Forall_forall. intros rs Hin. subst node. rewrite run_trace in *.
    rewrite node_delivered in Hin.
    destruct (completions_delivered _ _ _ _ Hin) as (c & this & result & Hr & ->).
    exists c, this, result. split; [|split; reflexivity].
    unfold node_trace. rewrite !in_app_iff. tauto.
  - destruct (browser_run_steady exec db_changes db_lastInsertRowid readOnly callback
                                 errorCallback successCallback d2)
      as (inner & Ht & (_ & _ & _ & Hrows & _) & _).
    fold browser in Ht. rewrite Ht.
    replace (delivered (Called Builder (fn_name callback) ArgTx
                        :: inner ++ [Returned Builder (fn_name callback)]))
      with (delivered inner).
    2:{ unfold delivered. simpl. rewrite flat_map_app. simpl.
        now rewrite app_nil_r. }
    eapply Forall_impl; [|exact Hrows].
    intros rs (c & result & Hin & H). exists c, result. split; [|exact H].
    right. apply in_or_app. now left.
Qed.

(** X11. Both variants: on every result set handed to a statement
    success callback, [rows.item(i)] is undefined exactly for the indices
    below 0 or at or beyond [rows.length]. *)
Theorem delivered_item_bounds
        (DB1 DB2 : Type)
        (perform : DB1 -> DriverCall -> DB1 * Completion)
        (exec : DB2 -> string -> list Value -> DB2 * (list Row + Error))
        (db_changes db_lastInsertRowid : DB2 -> Z + Error)
        (readOnly : bool) (callback : Callback)
        (errorCallback successCallback : option Callback)
        (d1 : DB1) (d2 : DB2) :
  let node :=
    Node.trace (Node.run perform readOnly callback errorCallback successCallback d1) in
  let browser :=
    Browser.trace (Browser.run exec db_changes db_lastInsertRowid readOnly
                               callback errorCallback successCallback d2) in
  Forall (fun rs => forall i : Z,
            Rows.item (rows rs) i = None
            <-> (i < 0 \/ Z.of_nat (Rows.length (rows rs)) <= i)%Z)
         (delivered node ++ delivered browser).
Proof.
  intros node browser.
  assert (H : Forall well_formed (delivered node ++ delivered browser)).
  { apply Forall_app. split.
    - apply queued_delivered. subst node. rewrite run_trace. apply node_trace_queued.
    - destruct (browser_run_shape exec db_changes db_lastInsertRowid readOnly
                                  callback errorCallback successCallback d2)
        as (evs & He & Fe).
      fold browser in He. rewrite He.
      replace (delivered (Called Builder (fn_name callback) ArgTx
                          :: evs ++ [Returned Builder (fn_name callback)]))
        with (delivered evs).
      2:{ unfold delivered. simpl. rewrite flat_map_app. simpl.
          now rewrite app_nil_r. }
      eapply Forall_impl; [|exact (inline_delivered Fe)].
      intros rs (n & k & result & ->). apply row_list_well_formed. }
  eapply Forall_impl; [|exact H].
  intros rs [Hlen Hitem] i. rewrite Hitem, Hlen. apply js_index_None.
Qed.

(** ** Errors and their callbacks in the queued variant *)

(** The errors of the statements that failed, in the order of failure. *)
Definition statement_errors (tr : Trace) : list Error :=
  flat_map (fun e =>
    match e with
    | Resolved (All _ _) (Failed err) => [err]
    | _ => []
    end) tr.

Definition has_errorCallback (c : SqlCall) : Prop :=
  errorCallback (request c) <> None.

Definition guarded (p : Node.Pending) : Prop :=
  match Node.captured p with
  | Some s => errorCallback s <> None
  | None => True
  end.

(** More builders for the sample engine. *)
Module Cases.
Definition bad_insert : string := "INSERT INTO nowhere VALUES (1);".

(** Every statement has an error callback; the first and the third fail. *)
Definition all_guarded : Callback :=
  Fn "build"
     [ExecuteSql bad_insert None None (Some (Fn "onFirstError" []));
      Sample.insert "Bob" None (Some (Fn "onSecondError" []));
      ExecuteSql "DROP TABLE nowhere;" None None (Some (Fn "onThirdError" []))].

(** An insert whose success callback registers a select. *)
Definition insert_then_nested_select : SqlCall :=
  Sample.insert "Alice"
    (Some (Fn "onInserted"
              [ExecuteSql Sample.select_users None (Some (Fn "onRows" [])) None]))
    None.
End Cases.

Lemma statement_errors_silent (tr : Trace) :
  existsb is_statement_failure tr = false -> statement_errors tr = [].
Proof.
  induction tr as [|e tr IH]; simpl; [reflexivity|].
  destruct e as [| | | | | | | |c r| | | | | |]; simpl; try exact IH.
  destruct c, r; simpl; try exact IH; discriminate.
Qed.

Lemma error_deliveries_call_events (slot : Slot) (f : Callback) (a : Arg) :
  error_deliveries (call_events slot f a)
  = error_deliveries [Called slot (fn_name f) a].
Proof.
  unfold call_events, registrations, error_deliveries.
  cbn [flat_map]. rewrite flat_map_app. cbn [flat_map]. rewrite !app_nil_r.
  replace (flat_map _ (map _ (fn_body f))) with (@nil (Slot * Error)).
  - now rewrite app_nil_r.
  - induction (fn_body f) as [|c l IH]; simpl; auto.
Qed.

Lemma completions_errors (DB : Type)
      (perform : DB -> DriverCall -> DB * Completion)
      (q : list Node.Pending) (d : DB) :
  Forall of_tick q ->
  Subsequence (error_deliveries (completions perform d q))
              (map (pair StmtError) (statement_errors (completions perform d q)))
  /\ (Forall guarded q ->
      error_deliveries (completions perform d q)
      = map (pair StmtError) (statement_errors (completions perform d q))).
Proof.
  intros Hq. revert d. induction Hq as [|p q Hp Hq IH]; intros d.
  - simpl. split; [constructor | reflexivity].
  - cbn [completions]. destruct (perform d (Node.op p)) as [d' r].
    set (rest := match Node.unhandled p r with
                 | Some err => [Uncaught err]
                 | None => completions perform d' q
                 end).
    assert (IHr : Subsequence (error_deliveries rest)
                              (map (pair StmtError) (statement_errors rest))
                  /\ (Forall guarded q ->
                      error_deliveries rest
                      = map (pair StmtError) (statement_errors rest))).
    { subst rest. destruct (Node.unhandled p r); [|apply IH].
      split; [constructor | reflexivity]. }
    clearbody rest. destruct IHr as [IH1 IH2].
    change (Resolved (Node.op p) r :: ?l) with ([Resolved (Node.op p) r] ++ l).
    unfold error_deliveries, statement_errors in *.
    rewrite !flat_map_app, !map_app.
    fold (error_deliveries (optional_reaction (Node.captured p) r)).
    fold (statement_errors (optional_reaction (Node.captured p) r)).
    rewrite (statement_errors_silent (optional_reaction (Node.captured p) r)).
    2:{ destruct (Node.captured p) as [s|]; [|reflexivity].
        destruct r as [err|this result]; cbn [optional_reaction reaction].
        - destruct (errorCallback s); cbn [optional_call];
            [now rewrite call_events_shape | reflexivity].
        - destruct (successCallback s); cbn [optional_call];
            [now rewrite call_events_shape | reflexivity]. }
    unfold of_tick in Hp.
    destruct (Node.op p) as [s0|s0 p0|s0 p0], (Node.captured p) as [s|] eqn:Ec;
      try contradiction.
    + simpl. split; [exact IH1|]. intros Hg. inversion Hg; subst. now apply IH2.
    + destruct r as [err|this result]; cbn [optional_reaction reaction].
      * destruct (errorCallback s) as [f|] eqn:Ef; cbn [optional_call];
          rewrite ?error_deliveries_call_events; simpl.
        -- split; [now constructor|].
           intros Hg. inversion Hg; subst. f_equal. now apply IH2.
        -- split; [now constructor|].
           intros Hg. inversion Hg as [|? ? Hs ?]; subst.
           unfold guarded in Hs. rewrite Ec, Ef in Hs. now elim Hs.
      * destruct (successCallback s) as [f|]; cbn [optional_call];
          rewrite ?error_deliveries_call_events; simpl;
          (split; [exact IH1|]); intros Hg; inversion Hg; subst; now apply IH2.
Qed.

(** X12. Queued variant: the errors handed to callbacks are errors of
    failed statements, each handed to a statement error callback, in the
    order of failure; and when every registered statement has an error
    callback, every statement failure is handed over, none is dropped. *)
Theorem node_statement_errors_delivered
        (DB : Type) (perform : DB -> DriverCall -> DB * Completion)
        (readOnly : bool) (callback : Callback)
        (errorCallback successCallback : option Callback) (d : DB) :
  let tr := Node.trace (Node.run perform readOnly callback errorCallback
                                 successCallback d) in
  Subsequence (error_deliveries tr) (map (pair StmtError) (statement_errors tr))
  /\ (Forall has_errorCallback (fn_body callback) ->
      error_deliveries tr = map (pair StmtError) (statement_errors tr)).
Proof.
  intros tr. subst tr. rewrite run_trace.
  destruct (node_trace_split perform readOnly callback successCallback d)
    as (pre & Ht & _ & Hs & _ & _ & _ & _ & He).
  rewrite Ht. unfold error_deliveries, statement_errors in *.
  rewrite !flat_map_app, He.
  fold (statement_errors pre). rewrite (statement_errors_silent pre Hs).
  cbn [app].
  destruct (completions_errors perform d
              (tick_queue_of_tick readOnly (map request (fn_body callback))))
    as [H1 H2].
  split; [exact H1|]. intros Hg. apply H2.
  unfold tick_queue, control. repeat (apply Forall_app; split).
  - destruct readOnly; repeat constructor.
  - clear - Hg.
    induction Hg as [|c l Hc Hl IH]; simpl; [constructor|].
    constructor; [exact Hc | exact IH].
  - destruct readOnly; repeat constructor.
Qed.

Lemma node_statement_errors_delivered_witness :
  let tr := Node.trace (Node.transaction Sample.perform Cases.all_guarded
                                         Sample.on_error Sample.on_success
                                         Sample.empty) in
  Forall has_errorCallback (fn_body Cases.all_guarded)
  /\ error_deliveries tr
     = [(StmtError, "SQLITE_ERROR"); (StmtError, "SQLITE_ERROR")]
  /\ error_deliveries tr = map (pair StmtError) (statement_errors tr).
Proof.
  intros tr.
  assert (Hg : Forall has_errorCallback (fn_body Cases.all_guarded)).
  { repeat constructor; discriminate. }
  split; [exact Hg|]. split; [reflexivity|].
  exact (proj2 (node_statement_errors_delivered Sample.perform false
                  Cases.all_guarded Sample.on_error Sample.on_success Sample.empty)
               Hg).
Defined.

(** ** Statements registered by callbacks in the browser variant *)

Definition optional_calls (f : option Callback) : list SqlCall :=
  match f with
  | Some f => fn_body f
  | None => []
  end.

(** The statements registered by the callback [executeSql] calls: the
    success callback when [db.exec] returned and the result set could be
    built, the error callback when [db.exec] threw or building the result
    set threw. *)
Definition selected_calls {DB : Type}
           (exec : DB -> string -> list Value -> DB * (list Row + Error))
           (db_changes db_lastInsertRowid : DB -> Z + Error)
           (s : string) (bind : list Value) (ok ko : option Callback)
           (d : DB) : list SqlCall :=
  match snd (exec d s bind) with
  | inl result =>
      match ok with
      | Some f =>
          match Browser.result_set db_changes db_lastInsertRowid
                                   (fst (exec d s bind)) result with
          | inl _ => fn_body f
          | inr _ => optional_calls ko
          end
      | None => []
      end
  | inr _ => optional_calls ko
  end.

(** X13. Browser variant, callbacks that return: [executeSql] hands its
    statement to the driver and then, before it returns, every statement
    registered by the callback it calls, in order.  That callback is the
    success callback only when [db.exec] returned and both
    [db.changes()] and [db.lastInsertRowid()] returned; when [db.exec]
    threw, or one of the two calls threw, it is the error callback.
    Unlike the queued variant, statements registered from a callback are
    executed. *)
Theorem browser_callback_statements_run_at_once
        (DB : Type)
        (exec : DB -> string -> list Value -> DB * (list Row + Error))
        (db_changes db_lastInsertRowid : DB -> Z + Error)
        (s : string) (p : option (list Value))
        (ok ko : option Callback) (d : DB) :
  let w := Browser.executeSql exec db_changes db_lastInsertRowid
                              (ExecuteSql s p ok ko) (Browser.mkWorld d []) in
  Subsequence
    (Exec s (default_params p)
     :: map exec_of (selected_calls exec db_changes db_lastInsertRowid
                                    s (default_params p) ok ko d))
    (dispatches (Browser.trace w)).
Proof.
  intros w. subst w. unfold selected_calls.
  rewrite executeSql_unfold, db_exec_spec.
  cbn [Browser.db Browser.trace app].
  destruct (steady_both exec db_changes db_lastInsertRowid) as [Hcall _].
  assert (Hcaught : forall err (w : Browser.World DB), exists tail,
            Browser.trace (caught exec db_changes db_lastInsertRowid ko err w)
            = Browser.trace w ++ tail
            /\ Subsequence (map exec_of (optional_calls ko)) (dispatches tail)).
  { intros err w. destruct ko as [g|]; cbn [optional_calls caught].
    - destruct (Hcall g StmtError (ArgError err) w) as (inner & Ht & _ & Hq).
      eexists. split; [exact Ht|]. now rewrite dispatches_between.
    - exists []. rewrite app_nil_r. split; [reflexivity | constructor]. }
  destruct (snd (exec d s (default_params p))) as [result|err].
  - destruct ok as [f|].
    + destruct (Browser.result_set db_changes db_lastInsertRowid
                  (fst (exec d s (default_params p))) result) as [rs|err].
      * match goal with
        | |- context [Browser.call _ _ _ _ _ ?a ?w1] =>
            destruct (Hcall f StmtSuccess a w1) as (inner & Ht & _ & Hq)
        end.
        rewrite Ht. cbn [Browser.trace app dispatches flat_map].
        constructor. fold (dispatches (inner ++ [Returned StmtSuccess (fn_name f)])).
        rewrite dispatches_app. simpl. now rewrite app_nil_r.
      * match goal with
        | |- context [caught _ _ _ _ _ ?w1] =>
            destruct (Hcaught err w1) as (tail & Ht & Hq)
        end.
        rewrite Ht. cbn [Browser.log Browser.trace app dispatches flat_map].
        constructor. exact Hq.
    + simpl. repeat constructor.
  - match goal with
    | |- context [caught _ _ _ _ _ ?w1] =>
        destruct (Hcaught err w1) as (tail & Ht & Hq)
    end.
    rewrite Ht. cbn [Browser.trace app dispatches flat_map].
    constructor. exact Hq.
Qed.

(** On the sample connection that answers both counters: the select
    registered by the insert's success callback is executed, and sees the
    inserted row. *)
Example nested_select_is_executed :
  let w := Browser.executeSql Sample.exec Sample.changes_count Sample.last_rowid
                              Cases.insert_then_nested_select
                              (Browser.mkWorld Sample.empty []) in
  dispatches (Browser.trace w)
  = [Exec Sample.insert_user [VText "Alice"]; Exec Sample.select_users []]
  /\ map (fun rs => Rows._array (rows rs)) (delivered (Browser.trace w))
     = [[]; [[("id", VInt 1); ("name", VText "Alice")]]].
Proof. split; reflexivity. Qed.

(** ** Statements registered without parameters *)

Lemma subsequence_In {A : Type} (l m : list A) (x : A) :
  Subsequence l m -> In x l -> In x m.
Proof.
  induction 1 as [m|y l m H IH|y l m H IH]; simpl; intros Hin.
  - contradiction.
  - destruct Hin as [->|Hin]; [now left | right; now apply IH].
  - right. now apply IH.
Qed.

(** X14. Both variants: a statement the builder registers with its
    [params] argument left out is handed to the driver with an empty
    parameter list. *)
Theorem omitted_params_are_empty
        (DB1 DB2 : Type)
        (perform : DB1 -> DriverCall -> DB1 * Completion)
        (exec : DB2 -> string -> list Value -> DB2 * (list Row + Error))
        (db_changes db_lastInsertRowid : DB2 -> Z + Error)
        (readOnly : bool) (callback : Callback)
        (errorCallback successCallback : option Callback)
        (d1 : DB1) (d2 : DB2)
        (s : string) (ok ko : option Callback) :
  In (ExecuteSql s None ok ko) (fn_body callback) ->
  In (All s [])
     (dispatches (Node.trace (Node.run perform readOnly callback errorCallback
                                       successCallback d1)))
  /\ In (Exec s [])
        (dispatches (Browser.trace (Browser.run exec db_changes db_lastInsertRowid
                                      readOnly callback errorCallback
                                      successCallback d2))).
Proof.
  intros Hin. split.
  - rewrite run_dispatches. unfold tick_dispatches.
    apply in_or_app. right. apply in_or_app. left.
    rewrite map_map. exact (in_map (fun c => all_of (request c)) _ _ Hin).
  - destruct (browser_run_steady exec db_changes db_lastInsertRowid readOnly callback
                                 errorCallback successCallback d2)
      as (inner & Ht & _ & Hq).
    rewrite Ht, dispatches_between.
    apply (@subsequence_In _ _ _ (Exec s []) Hq). exact (in_map exec_of _ _ Hin).
Qed.

Lemma omitted_params_are_empty_witness :
  In (ExecuteSql Sample.select_users None (Some (Fn "onRows" [])) None)
     (fn_body Sample.insert_then_select)
  /\ In (All Sample.select_users [])
        (dispatches (Node.trace (Node.run Sample.perform false
                                   Sample.insert_then_select Sample.on_error
                                   Sample.on_success Sample.empty)))
  /\ In (Exec Sample.select_users [])
        (dispatches (Browser.trace (Browser.run Sample.exec Sample.changes_count
                                      Sample.last_rowid false
                                      Sample.insert_then_select Sample.on_error
                                      Sample.on_success Sample.empty))).
Proof.
  assert (Hin : In (ExecuteSql Sample.select_users None (Some (Fn "onRows" [])) None)
                   (fn_body Sample.insert_then_select)).
  { right. left. reflexivity. }
  split; [exact Hin|].
  exact (omitted_params_are_empty Sample.perform Sample.exec Sample.changes_count
           Sample.last_rowid false Sample.insert_then_select Sample.on_error
           Sample.on_success Sample.empty Sample.empty
           Sample.select_users (Some (Fn "onRows" [])) None Hin).
Defined.

(** ** The counters of a delivered result set *)










(** On a connection whose [db.lastInsertRowid()] always throws, no result
    set is built, so no statement success callback is called. *)
Lemma no_rowid_no_success (DB : Type)
      (exec : DB -> string -> list Value -> DB * (list Row + Error))
      (db_changes db_lastInsertRowid : DB -> Z + Error) :
  (forall d, exists err, db_lastInsertRowid d = inr err) ->
  forall evs, Forall inline_event evs ->
  forall d, replayed exec db_changes db_lastInsertRowid d evs ->
  calls_of StmtSuccess evs = [] /\ delivered evs = [].
Proof.
  intros Hno evs Hevs.
  induction Hevs as [|e evs He Hevs IH]; intros d Hr; [now split|].
  destruct Hr as [Hc Hr]. destruct (IH _ Hr) as [IH1 IH2].
  unfold delivered in *.
  destruct He; cbn [calls_of delivered flat_map app];
    try (split; [exact IH1 | exact IH2]).
  exfalso. destruct Hc as (_ & k' & Hk & _).
  destruct (Hno d) as (err & Herr). congruence.
Qed.

(** The sample connection without [lastInsertRowid]: the insert is
    executed, no result set is built, and the statement's error callback
    is given the TypeError. *)
Example insert_without_lastInsertRowid :
  let w := Browser.transaction Sample.exec Sample.changes_count Sample.no_rowid
             (Fn "build" [Sample.insert "Alice" (Some (Fn "onInserted" []))
                                        (Some (Fn "onInsertError" []))])
             Sample.on_error Sample.on_success Sample.empty in
  Browser.trace w
  = [Called Builder "build" ArgTx;
     Dispatched (Exec Sample.insert_user [VText "Alice"]);
     ExecReturned (Exec Sample.insert_user [VText "Alice"]) [];
     Raised "TypeError: db.lastInsertRowid is not a function";
     Called StmtError "onInsertError"
            (ArgError "TypeError: db.lastInsertRowid is not a function");
     Returned StmtError "onInsertError";
     Returned Builder "build"]
  /\ Sample.users (Browser.db w) = [[("id", VInt 1); ("name", VText "Alice")]].
Proof. split; reflexivity. Qed.


(** On the sample engine the result sets of an insert followed by a
    select: the queued variant, whose statement objects carry no
    counters, delivers zero and null; the browser variant delivers the
    connection's counters, or nothing when the connection has no
    [lastInsertRowid]. *)
Example sample_result_sets :
  let counters := map (fun rs => (rowsAffected rs, insertId rs)) in
  counters (delivered (Node.trace (Node.transaction Sample.perform
                          Sample.insert_then_select Sample.on_error
                          Sample.on_success Sample.empty)))
  = [(0%Z, None)]
  /\ counters (delivered (Browser.trace (Browser.transaction Sample.exec
                            Sample.changes_count Sample.last_rowid
                            Sample.insert_then_select Sample.on_error
                            Sample.on_success Sample.empty)))
     = [(1%Z, Some 1%Z)]
  /\ delivered (Browser.trace (Browser.transaction Sample.exec
                  Sample.changes_count Sample.no_rowid
                  Sample.insert_then_select Sample.on_error
                  Sample.on_success Sample.empty))
     = [].
Proof. repeat split; reflexivity. Qed.

(** ** A connection without [lastInsertRowid] *)

(** X16. Browser variant: when [db.lastInsertRowid()] throws on every
    database, as it does when the connection has no such method, no
    statement success callback is ever called, whatever the statements
    do. *)
Theorem browser_no_success_without_lastInsertRowid
        (DB : Type)
        (exec : DB -> string -> list Value -> DB * (list Row + Error))
        (db_changes db_lastInsertRowid : DB -> Z + Error)
        (readOnly : bool) (callback : Callback)
        (errorCallback successCallback : option Callback) (d : DB) :
  (forall d', exists err, db_lastInsertRowid d' = inr err) ->
  calls_of StmtSuccess
    (Browser.trace (Browser.run exec db_changes db_lastInsertRowid readOnly
                                callback errorCallback successCallback d))
  = [].
Proof.
  intros Hno.
  destruct (browser_run_shape exec db_changes db_lastInsertRowid readOnly
                              callback errorCallback successCallback d)
    as (evs & He & Fe).
  destruct (browser_run_steady exec db_changes db_lastInsertRowid readOnly callback
                               errorCallback successCallback d)
    as (inner & Ht & (_ & _ & _ & _ & Hr) & _).
  assert (Hevs : inner = evs).
  { rewrite Ht in He. injection He as He. now apply app_inv_tail in He. }
  subst inner. rewrite He, calls_of_between. cbn [calls_of flat_map app].
  exact (proj1 (@no_rowid_no_success _ exec db_changes db_lastInsertRowid
                  Hno evs Fe d Hr)).
Qed.

Lemma browser_no_success_without_lastInsertRowid_witness :
  (forall d', exists err, Sample.no_rowid d' = inr err)
  /\ calls_of StmtSuccess
       (Browser.trace (Browser.run Sample.exec Sample.changes_count
                         Sample.no_rowid false Sample.insert_then_select
                         Sample.on_error Sample.on_success Sample.empty))
     = [].
Proof.
  assert (Hno : forall d', exists err, Sample.no_rowid d' = inr err).
  { intros d'. eexists. reflexivity. }
  split; [exact Hno|].
  exact (browser_no_success_without_lastInsertRowid Sample.exec
           Sample.changes_count Sample.no_rowid false Sample.insert_then_select
           Sample.on_error Sample.on_success Sample.empty Hno).
Defined.

(** ** BEGIN and COMMIT in the queued variant *)

(** X17. Queued variant, every engine: a read-only transaction hands the
    driver its statements and nothing else; a read-write transaction
    hands it BEGIN, then the statements, then COMMIT, each once, whether
    or not anything fails. *)
Theorem node_begin_commit_bracket
        (DB : Type) (perform : DB -> DriverCall -> DB * Completion)
        (callback : Callback)
        (errorCallback successCallback : option Callback) (d : DB) :
  let statements := map all_of (map request (fn_body callback)) in
  dispatches (Node.trace (Node.readTransaction perform callback errorCallback
                                               successCallback d))
  = statements
  /\ dispatches (Node.trace (Node.transaction perform callback errorCallback
                                              successCallback d))
     = Run "BEGIN TRANSACTION;" :: statements ++ [Run "COMMIT;"].
Proof.
  intros statements. unfold Node.readTransaction, Node.transaction.
  rewrite !run_dispatches. unfold tick_dispatches, control. cbn [app].
  split; [apply app_nil_r | reflexivity].
Qed.

(** ** What the browser variant hands to the driver *)

(** Every [executeSql] call written in a caller-supplied function or in a
    callback of one of its statements, at any depth. *)
Fixpoint calls_within (f : Callback) : list SqlCall :=
  match f with
  | Fn _ body =>
      (fix each (l : list SqlCall) : list SqlCall :=
         match l with
         | [] => []
         | c :: l' => (c :: nested_calls c) ++ each l'
         end) body
  end
with nested_calls (c : SqlCall) : list SqlCall :=
  match c with
  | ExecuteSql _ _ ok ko =>
      match ok with Some f => calls_within f | None => [] end
      ++ match ko with Some f => calls_within f | None => [] end
  end.

Lemma calls_within_unfold (name : string) (body : list SqlCall) :
  calls_within (Fn name body) = flat_map (fun c => c :: nested_calls c) body.
Proof.
  induction body as [|c l IH]; [reflexivity|].
  cbn [flat_map]. rewrite <- IH. reflexivity.
Qed.

Section BrowserOnly.
Variable DB : Type.
Variable exec : DB -> string -> list Value -> DB * (list Row + Error).
Variable db_changes : DB -> Z + Error.
Variable db_lastInsertRowid : DB -> Z + Error.

Let World := Browser.World DB.
Let executeSql := Browser.executeSql exec db_changes db_lastInsertRowid.
Let call := Browser.call exec db_changes db_lastInsertRowid.

Definition calls_only (f : Callback) : Prop :=
  forall slot a (w : World), exists ds,
    dispatches (Browser.trace (call slot f a w))
    = dispatches (Browser.trace w) ++ ds
    /\ incl ds (map exec_of (calls_within f)).

Definition runs_only (c : SqlCall) : Prop :=
  forall w : World, exists ds,
    dispatches (Browser.trace (executeSql c w))
    = dispatches (Browser.trace w) ++ ds
    /\ incl ds (map exec_of (c :: nested_calls c)).

Lemma each_only (body : list SqlCall) :
  Forall runs_only body ->
  forall w : World, exists ds,
    dispatches (Browser.trace (fold_left (fun w c => executeSql c w) body w))
    = dispatches (Browser.trace w) ++ ds
    /\ incl ds (map exec_of (flat_map (fun c => c :: nested_calls c) body)).
Proof.
  induction 1 as [|c l Hc Hl IH]; intros w; cbn [fold_left flat_map].
  - exists []. rewrite app_nil_r. split; [reflexivity | apply incl_nil_l].
  - destruct (Hc w) as (d1 & H1 & I1).
    destruct (IH (executeSql c w)) as (d2 & H2 & I2).
    exists (d1 ++ d2). rewrite H2, H1, app_assoc. split; [reflexivity|].
    rewrite map_app. apply incl_app; [now apply incl_appl | now apply incl_appr].
Qed.

Lemma only_both : (forall f, calls_only f) /\ (forall c, runs_only c).
Proof.
  assert (HP : forall name body, Forall runs_only body -> calls_only (Fn name body)).
  { intros name body Hb slot a w.
    unfold call. rewrite (call_unfold exec db_changes db_lastInsertRowid).
    destruct (each_only Hb (Browser.log (Called slot name a) w)) as (ds & Hd & Hi).
    exists ds. cbn [Browser.log Browser.trace] in *. fold executeSql.
    rewrite dispatches_app, Hd, dispatches_app. cbn [dispatches flat_map].
    rewrite !app_nil_r. split; [reflexivity|].
    now rewrite calls_within_unfold. }
  assert (Hopt : forall (g : option Callback) slot a (w : World),
            option_all calls_only g ->
            exists ds,
              dispatches (Browser.trace
                            match g with
                            | Some f => call slot f a w
                            | None => w
                            end)
              = dispatches (Browser.trace w) ++ ds
              /\ incl ds (map exec_of match g with
                                      | Some f => calls_within f
                                      | None => []
                                      end)).
  { intros [f|] slot a w Hg; cbn [option_all] in Hg.
    - apply Hg.
    - exists []. rewrite app_nil_r. split; [reflexivity | apply incl_nil_l]. }
  assert (HQ : forall s p ok ko, option_all calls_only ok ->
                 option_all calls_only ko -> runs_only (ExecuteSql s p ok ko)).
  { intros s p ok ko Hok Hko w.
    unfold executeSql. rewrite (executeSql_unfold exec db_changes db_lastInsertRowid).
    rewrite db_exec_spec. unfold caught. fold call.
    set (bind := default_params p).
    cbn [nested_calls exec_of map]. fold bind.
    assert (Hans : forall e, dispatches [e] = [] ->
              dispatches (Browser.trace w ++ [Dispatched (Exec s bind); e])
              = dispatches (Browser.trace w) ++ [Exec s bind]).
    { intros e He.
      change [Dispatched (Exec s bind); e] with ([Dispatched (Exec s bind)] ++ [e]).
      now rewrite !dispatches_app, He, app_nil_r. }
    assert (Hko' : forall (w2 : World) err,
              dispatches (Browser.trace w2)
              = dispatches (Browser.trace w) ++ [Exec s bind] ->
              exists ds,
                dispatches (Browser.trace
                              match ko with
                              | Some g => call StmtError g (ArgError err) w2
                              | None => w2
                              end)
                = dispatches (Browser.trace w) ++ ds
                /\ incl ds (Exec s bind
                            :: map exec_of
                                 (match ok with
                                  | Some f => calls_within f
                                  | None => []
                                  end
                                  ++ match ko with
                                     | Some f => calls_within f
                                     | None => []
                                     end))).
    { intros w2 err H2.
      destruct (Hopt ko StmtError (ArgError err) w2 Hko) as (ds & Hd & Hi).
      exists (Exec s bind :: ds). rewrite Hd, H2, <- app_assoc.
      split; [reflexivity|].
      apply incl_cons; [now left|]. apply incl_tl.
      rewrite map_app. now apply incl_appr. }
    destruct (snd (exec (Browser.db w) s bind)) as [result|err];
      match goal with
      | |- context [Browser.mkWorld ?d1 ?t1] => set (w1 := Browser.mkWorld d1 t1)
      end;
      assert (H1 : dispatches (Browser.trace w1)
                   = dispatches (Browser.trace w) ++ [Exec s bind])
        by (apply Hans; reflexivity).
    - destruct ok as [f|]; cbn [option_all] in Hok.
      + destruct (Browser.result_set db_changes db_lastInsertRowid
                                     (Browser.db w1) result) as [rs|err].
        * destruct (Hok StmtSuccess (ArgResult rs) w1) as (ds & Hd & Hi).
          exists (Exec s bind :: ds). fold call. rewrite Hd, H1, <- app_assoc.
          split; [reflexivity|].
          apply incl_cons; [now left|]. apply incl_tl.
          rewrite map_app. now apply incl_appl.
        * apply Hko'. cbn [Browser.log Browser.trace].
          now rewrite dispatches_app, H1, app_nil_r.
      + exists [Exec s bind]. split; [exact H1|].
        apply incl_cons; [now left | apply incl_nil_l].
    - apply Hko'. exact H1. }
  split.
  - exact (@Callback_induction _ _ HP HQ).
  - exact (@SqlCall_induction _ _ HP HQ).
Qed.
End BrowserOnly.

(** X18. Browser variant, every engine and transaction: whatever is
    handed to the driver is the [db.exec] of an [executeSql] call made by
    the builder or by a statement callback, with that call's SQL text and
    parameters.  The library hands the driver no statement of its own:
    no BEGIN, no COMMIT and no ROLLBACK, for a read-write transaction as
    for a read-only one. *)
Theorem browser_dispatches_only_registered
        (DB : Type)
        (exec : DB -> string -> list Value -> DB * (list Row + Error))
        (db_changes db_lastInsertRowid : DB -> Z + Error)
        (readOnly : bool) (callback : Callback)
        (errorCallback successCallback : option Callback) (d : DB) :
  incl (dispatches (Browser.trace (Browser.run exec db_changes db_lastInsertRowid
                                     readOnly callback errorCallback
                                     successCallback d)))
       (map exec_of (calls_within callback)).
Proof.
  unfold Browser.run, Browser.Transaction.
  destruct (only_both exec db_changes db_lastInsertRowid) as [Hcall _].
  destruct (Hcall callback Builder ArgTx (Browser.mkWorld d [])) as (ds & Hd & Hi).
  rewrite Hd. exact Hi.
Qed.
